(** * A shallow embedding of the gohbase Thrift connection pool

    The development follows [pool.go] (the pool), the connection file that
    declares [ThriftConn] with its [pooled] flag and [NewThriftConn], and
    the options file that declares [Options] and [Options.init].

    Modelling choices.
    - Go's [int] and [time.Duration] are integers in [Z].  The [uint32]
      counters are kept in [Z] with the reduction modulo [2^32] written
      out at every conversion and atomic addition, and [Options.init] and
      [Time.Sub] have their 64-bit wrap-around and saturation.  The two
      [int] counters [poolSize] and [idleConnsLen] move by one per call
      and cannot leave the 64-bit range within the life of a process, so
      their increments are written without wrap-around.
    - A [*ThriftConn] is an address into a store of connection objects
      ([heap], a [gmap]); two pointers are the same connection exactly when
      the addresses are equal, as in the source's [c == cn].
    - The buffered channel [queue] carries empty structs, so only the
      number of queued elements matters; its capacity is [opt.PoolSize].
    - [go f()] pushes a goroutine on [goroutines]; the scheduler runs it in
      a later step.
    - The outcome of a dial and the value [socket.Close()] will return are
      chosen by the environment and passed in as a [DialResult].
    - Every exported method runs as one atomic step; [time.Now()] reads the
      [clock] of the world, which only the environment advances.  A method
      that would block for ever (a receive on the empty [queue], a send on
      the full one without timer) has no result: the model returns [None].
      The last part of the development shows that these cases are not met
      when callers keep to the contract of [Get], [Put] and [Remove]. *)

From stdpp Require Import gmap list strings.
From Stdlib Require Import ZArith Lia.

Local Open Scope Z_scope.

(** ** Errors *)

Inductive error : Type :=
| ErrClosed                      (* "HBase: client is closed" *)
| ErrPoolTimeout                 (* "HBase: connection pool timeout" *)
| ErrOther (msg : string).       (* any error of the network layer *)

(** A Go value of type [error] is [nil] or an error. *)
Abbreviation nilable_error := (option error).

(** ** Machine integers *)

Definition u32 (x : Z) : Z := x mod 2 ^ 32.

Definition wrap64 (x : Z) : Z := (x + 2 ^ 63) mod 2 ^ 64 - 2 ^ 63.

Definition minDuration : Z := - 2 ^ 63.
Definition maxDuration : Z := 2 ^ 63 - 1.

Definition Nanosecond : Z := 1.
Definition Second : Z := 1000000000.
Definition Minute : Z := 60 * Second.

(** [Time.Sub]: the difference of two instants, saturated to the range of
    [time.Duration]. *)
Definition Time_Sub (t u : Z) : Z :=
  Z.max minDuration (Z.min maxDuration (t - u)).

(** ** Options *)

Record Options : Type := mkOptions {
  Addr : string;
  MaxRetries : Z;
  DialTimeout : Z;
  ReadTimeout : Z;
  WriteTimeout : Z;
  IdleTimeout : Z;
  PoolTimeout : Z;
  IdleCheckFrequency : Z;
  PoolSize : Z;
  MinIdleConns : Z
}.

Section OptionsInit.
(** [runtime.NumCPU()] of the machine the program runs on. *)
Variable NumCPU : Z.

(** [func (opt *Options) init()] *)
Definition init (opt : Options) : Options :=
  let addr := if decide (Addr opt = "") then "localhost:9090"%string else Addr opt in
  let poolSize := if decide (PoolSize opt = 0) then wrap64 (10 * NumCPU) else PoolSize opt in
  let dialTimeout := if decide (DialTimeout opt = 0) then 5 * Second else DialTimeout opt in
  let readTimeout :=
    if decide (ReadTimeout opt = -1) then 0
    else if decide (ReadTimeout opt = 0) then 3 * Second
    else ReadTimeout opt in
  let writeTimeout :=
    if decide (WriteTimeout opt = -1) then 0
    else if decide (WriteTimeout opt = 0) then readTimeout
    else WriteTimeout opt in
  let poolTimeout :=
    if decide (PoolTimeout opt = 0) then wrap64 (readTimeout + Second) else PoolTimeout opt in
  let idleTimeout := if decide (IdleTimeout opt = 0) then 5 * Minute else IdleTimeout opt in
  let idleCheckFrequency :=
    if decide (IdleCheckFrequency opt = 0) then Minute else IdleCheckFrequency opt in
  {| Addr := addr;
     MaxRetries := MaxRetries opt;
     DialTimeout := dialTimeout;
     ReadTimeout := readTimeout;
     WriteTimeout := writeTimeout;
     IdleTimeout := idleTimeout;
     PoolTimeout := poolTimeout;
     IdleCheckFrequency := idleCheckFrequency;
     PoolSize := poolSize;
     MinIdleConns := MinIdleConns opt |}.
End OptionsInit.

(** ** Connections *)

(** The only operation the pool performs on a socket is [Close]; the
    environment fixes its result when the socket is opened. *)
Record TSocket : Type := mkTSocket { closeResult : nilable_error }.

Definition ptr : Type := nat.

Module ThriftConn.
Record t : Type := mk {
  Endpoint : string;
  closed : bool;
  socket : TSocket;
  usedTime : Z;
  createTime : Z;
  pooled : bool
}.

Definition set_closed (b : bool) (c : t) : t :=
  mk (Endpoint c) b (socket c) (usedTime c) (createTime c) (pooled c).
Definition set_usedTime (x : Z) (c : t) : t :=
  mk (Endpoint c) (closed c) (socket c) x (createTime c) (pooled c).
Definition set_pooled (b : bool) (c : t) : t :=
  mk (Endpoint c) (closed c) (socket c) (usedTime c) (createTime c) b.
End ThriftConn.

(** ** The pool *)

Record Stats : Type := mkStats {
  Hits : Z;
  Misses : Z;
  Timeouts : Z;
  TotalConns : Z;
  IdleConns : Z;
  StaleConns : Z
}.

Record ThriftConnPool : Type := mkPool {
  opt : Options;
  dialErrorsNum : Z;
  lastDialError : nilable_error;
  queue : nat;
  conns : list ptr;
  idleConns : list ptr;
  poolSize : Z;
  idleConnsLen : Z;
  stats : Stats;
  _closed : Z
}.

Inductive Goroutine : Type :=
| GoAddIdleConn
| GoTryDial
| GoReaper (frequency : Z).

Global Instance Goroutine_eq_dec : EqDecision Goroutine.
Proof. solve_decision. Defined.

Record World : Type := mkWorld {
  tp : ThriftConnPool;
  heap : gmap ptr ThriftConn.t;
  nextp : ptr;
  clock : Z;
  goroutines : list Goroutine;
  dials : nat
}.

Inductive DialResult : Type :=
| DialOk (sock : TSocket)
| DialErr (e : error).

Global Instance TSocket_inhabited : Inhabited TSocket := populate (mkTSocket None).

(** Go is memory safe: a non-nil [*ThriftConn] always points to a
    connection object, so reading through a pointer is total.  The
    inhabitant below is what the total lookup [heap !!! cn] yields at an
    address that was never allocated; no pointer of the program has one. *)
Global Instance ThriftConn_inhabited : Inhabited ThriftConn.t :=
  populate (ThriftConn.mk "" true inhabitant 0 0 false).

(** *** Field updates *)

Definition set_dialErrorsNum (x : Z) (p : ThriftConnPool) : ThriftConnPool :=
  mkPool (opt p) x (lastDialError p) (queue p) (conns p) (idleConns p)
         (poolSize p) (idleConnsLen p) (stats p) (_closed p).
Definition set_lastDialError (x : nilable_error) (p : ThriftConnPool) : ThriftConnPool :=
  mkPool (opt p) (dialErrorsNum p) x (queue p) (conns p) (idleConns p)
         (poolSize p) (idleConnsLen p) (stats p) (_closed p).
Definition set_queue (x : nat) (p : ThriftConnPool) : ThriftConnPool :=
  mkPool (opt p) (dialErrorsNum p) (lastDialError p) x (conns p) (idleConns p)
         (poolSize p) (idleConnsLen p) (stats p) (_closed p).
Definition set_conns (x : list ptr) (p : ThriftConnPool) : ThriftConnPool :=
  mkPool (opt p) (dialErrorsNum p) (lastDialError p) (queue p) x (idleConns p)
         (poolSize p) (idleConnsLen p) (stats p) (_closed p).
Definition set_idleConns (x : list ptr) (p : ThriftConnPool) : ThriftConnPool :=
  mkPool (opt p) (dialErrorsNum p) (lastDialError p) (queue p) (conns p) x
         (poolSize p) (idleConnsLen p) (stats p) (_closed p).
Definition set_poolSize (x : Z) (p : ThriftConnPool) : ThriftConnPool :=
  mkPool (opt p) (dialErrorsNum p) (lastDialError p) (queue p) (conns p) (idleConns p)
         x (idleConnsLen p) (stats p) (_closed p).
Definition set_idleConnsLen (x : Z) (p : ThriftConnPool) : ThriftConnPool :=
  mkPool (opt p) (dialErrorsNum p) (lastDialError p) (queue p) (conns p) (idleConns p)
         (poolSize p) x (stats p) (_closed p).
Definition set_stats (x : Stats) (p : ThriftConnPool) : ThriftConnPool :=
  mkPool (opt p) (dialErrorsNum p) (lastDialError p) (queue p) (conns p) (idleConns p)
         (poolSize p) (idleConnsLen p) x (_closed p).
Definition set__closed (x : Z) (p : ThriftConnPool) : ThriftConnPool :=
  mkPool (opt p) (dialErrorsNum p) (lastDialError p) (queue p) (conns p) (idleConns p)
         (poolSize p) (idleConnsLen p) (stats p) x.

Definition with_tp (f : ThriftConnPool → ThriftConnPool) (w : World) : World :=
  mkWorld (f (tp w)) (heap w) (nextp w) (clock w) (goroutines w) (dials w).
Definition with_heap (f : gmap ptr ThriftConn.t → gmap ptr ThriftConn.t) (w : World) : World :=
  mkWorld (tp w) (f (heap w)) (nextp w) (clock w) (goroutines w) (dials w).

(** [go g()] *)
Definition go (g : Goroutine) (w : World) : World :=
  mkWorld (tp w) (heap w) (nextp w) (clock w) (goroutines w ++ [g]) (dials w).

(** [atomic.AddUint32(&tp.stats.X, n)] *)
Definition add_Hits (n : Z) (s : Stats) : Stats :=
  mkStats (u32 (Hits s + n)) (Misses s) (Timeouts s) (TotalConns s) (IdleConns s) (StaleConns s).
Definition add_Misses (n : Z) (s : Stats) : Stats :=
  mkStats (Hits s) (u32 (Misses s + n)) (Timeouts s) (TotalConns s) (IdleConns s) (StaleConns s).
Definition add_Timeouts (n : Z) (s : Stats) : Stats :=
  mkStats (Hits s) (Misses s) (u32 (Timeouts s + n)) (TotalConns s) (IdleConns s) (StaleConns s).
Definition add_StaleConns (n : Z) (s : Stats) : Stats :=
  mkStats (Hits s) (Misses s) (Timeouts s) (TotalConns s) (IdleConns s) (u32 (StaleConns s + n)).

(** *** Methods of [*ThriftConn], through the store *)

(** [func (t *ThriftConn) Close() error] *)
Definition cn_Close (w : World) (cn : ptr) : World * nilable_error :=
  let c := heap w !!! cn in
  if ThriftConn.closed c then (w, None)
  else (with_heap (alter (ThriftConn.set_closed true) cn) w,
        closeResult (ThriftConn.socket c)).

(** [func (t *ThriftConn) UsedTime() time.Time] *)
Definition cn_UsedTime (w : World) (cn : ptr) : Z :=
  ThriftConn.usedTime (heap w !!! cn).

(** [func (t *ThriftConn) UpdateUsedTime() int64] *)
Definition cn_UpdateUsedTime (w : World) (cn : ptr) : World * Z :=
  let tm := clock w in
  (with_heap (alter (ThriftConn.set_usedTime tm) cn) w, tm).

(** [func (t *ThriftConn) IsClose() bool] *)
Definition cn_IsClose (w : World) (cn : ptr) : bool :=
  ThriftConn.closed (heap w !!! cn).

(** [func NewThriftConn(endpoint string, dialTimeout time.Duration)]:
    one dial.  The new object gets the next free address. *)
Definition NewThriftConn (endpoint : string) (dialTimeout : Z) (d : DialResult)
    (w : World) : World * (ptr + error) :=
  match d with
  | DialErr e =>
      (mkWorld (tp w) (heap w) (nextp w) (clock w) (goroutines w) (S (dials w)), inr e)
  | DialOk sock =>
      let cn := nextp w in
      let conn := ThriftConn.mk endpoint false sock (clock w) (clock w) false in
      (mkWorld (tp w) (<[cn := conn]> (heap w)) (S cn) (clock w) (goroutines w)
               (S (dials w)), inl cn)
  end.

(** *** Methods of [*ThriftConnPool] *)

(** [func (tp *ThriftConnPool) closed() bool] *)
Definition closed (w : World) : bool := bool_decide (_closed (tp w) = 1).

(** [tp.queue <- struct{}{}] without timer: proceeds when the buffer has
    room, blocks otherwise. *)
Definition getTurn (w : World) : option World :=
  if decide (Z.of_nat (queue (tp w)) < PoolSize (opt (tp w)))
  then Some (with_tp (set_queue (S (queue (tp w)))) w)
  else None.

(** [waitTurn]: the send succeeds when the buffer has room; otherwise the
    timer of [PoolTimeout] fires, since no other step frees a slot while
    this one runs. *)
Definition waitTurn (w : World) : World * nilable_error :=
  if decide (Z.of_nat (queue (tp w)) < PoolSize (opt (tp w)))
  then (with_tp (set_queue (S (queue (tp w)))) w, None)
  else (with_tp (λ p, set_stats (add_Timeouts 1 (stats p)) p) w, Some ErrPoolTimeout).

(** [<-tp.queue]: blocks on an empty buffer. *)
Definition freeTurn (w : World) : option World :=
  match queue (tp w) with
  | O => None
  | S n => Some (with_tp (set_queue n) w)
  end.

Definition setLastDialError (w : World) (err : nilable_error) : World :=
  with_tp (set_lastDialError err) w.

Definition getLastDialError (w : World) : nilable_error := lastDialError (tp w).

(** [func (tp *ThriftConnPool) Len() int] *)
Definition Len (w : World) : Z := Z.of_nat (length (conns (tp w))).

(** [func (tp *ThriftConnPool) IdleLen() int] *)
Definition IdleLen (w : World) : Z := idleConnsLen (tp w).

(** [func (tp *ThriftConnPool) Stats() *Stats] *)
Definition PoolStats (w : World) : Stats :=
  let idleLen := IdleLen w in
  {| Hits := Hits (stats (tp w));
     Misses := Misses (stats (tp w));
     Timeouts := Timeouts (stats (tp w));
     TotalConns := u32 (Len w);
     IdleConns := u32 idleLen;
     StaleConns := StaleConns (stats (tp w)) |}.

(** One turn of the [for] loop of [tryDial]; the flag tells whether the
    goroutine returned.  After a failed dial it sleeps a second and starts
    the next turn. *)
Definition tryDial (w : World) (d : DialResult) : World * bool :=
  if closed w then (w, true)
  else
    match NewThriftConn (Addr (opt (tp w))) (DialTimeout (opt (tp w))) d w with
    | (w1, inr err) => (setLastDialError w1 (Some err), false)
    | (w1, inl conn) =>
        let w2 := with_tp (set_dialErrorsNum 0) w1 in
        (fst (cn_Close w2 conn), true)
    end.

(** [func (tp *ThriftConnPool) newConn(pooled bool) ( *ThriftConn, error)] *)
Definition newConn (w : World) (pooled : bool) (d : DialResult)
    : World * (option ptr * nilable_error) :=
  if closed w then (w, (None, Some ErrClosed))
  else if decide (u32 (PoolSize (opt (tp w))) <= dialErrorsNum (tp w))
  then (w, (None, getLastDialError w))
  else
    match NewThriftConn (Addr (opt (tp w))) (DialTimeout (opt (tp w))) d w with
    | (w1, inr err) =>
        let w2 := setLastDialError w1 (Some err) in
        let n := u32 (dialErrorsNum (tp w2) + 1) in
        let w3 := with_tp (set_dialErrorsNum n) w2 in
        let w4 := if decide (n = u32 (PoolSize (opt (tp w3)))) then go GoTryDial w3 else w3 in
        (w4, (None, Some err))
    | (w1, inl conn) =>
        (with_heap (alter (ThriftConn.set_pooled pooled) conn) w1, (Some conn, None))
    end.

(** [func (tp *ThriftConnPool) addIdleConn()].  When [newConn] returns a
    nil connection together with a nil error the source appends the nil
    pointer; that case has no result here (see [newConn_nil_nil]). *)
Definition addIdleConn (w : World) (d : DialResult) : option World :=
  match newConn w true d with
  | (w1, (_, Some err)) => Some w1
  | (w1, (Some cn, None)) =>
      Some (with_tp (λ p, set_idleConns (idleConns p ++ [cn])
                            (set_conns (conns p ++ [cn]) p)) w1)
  | (w1, (None, None)) => None
  end.

(** [func (tp *ThriftConnPool) checkMinIdleConns()] *)
Definition checkMinIdleConns (w : World) : World :=
  if decide (MinIdleConns (opt (tp w)) = 0) then w
  else if decide (poolSize (tp w) < PoolSize (opt (tp w))
                  ∧ idleConnsLen (tp w) < MinIdleConns (opt (tp w)))
  then go GoAddIdleConn
         (with_tp (λ p, set_idleConnsLen (idleConnsLen p + 1)
                          (set_poolSize (poolSize p + 1) p)) w)
  else w.

(** [func (tp *ThriftConnPool) popIdle() *ThriftConn] *)
Definition popIdle (w : World) : World * option ptr :=
  match last (idleConns (tp w)) with
  | None => (w, None)
  | Some cn =>
      let idx := (length (idleConns (tp w)) - 1)%nat in
      let w1 := with_tp (λ p, set_idleConnsLen (idleConnsLen p - 1)
                                (set_idleConns (take idx (idleConns p)) p)) w in
      (checkMinIdleConns w1, Some cn)
  end.

(** [func (tp *ThriftConnPool) isStaleConn(cn *ThriftConn) bool] *)
Definition isStaleConn (w : World) (cn : ptr) : bool :=
  if decide (IdleTimeout (opt (tp w)) = 0) then false
  else
    let now := clock w in
    if decide (IdleTimeout (opt (tp w)) > 0
               ∧ Time_Sub now (cn_UsedTime w cn) >= IdleTimeout (opt (tp w)))
    then true
    else false.

(** The [for i, c := range tp.conns] of [removeConn]: the list without
    the first occurrence of [x], if there is one. *)
Fixpoint remove_first {A : Type} `{EqDecision A} (x : A) (l : list A) : option (list A) :=
  match l with
  | [] => None
  | c :: l' =>
      if decide (c = x) then Some l'
      else match remove_first x l' with
           | Some r => Some (c :: r)
           | None => None
           end
  end.

(** [func (tp *ThriftConnPool) removeConn(cn *ThriftConn)] *)
Definition removeConn (w : World) (cn : ptr) : World :=
  match remove_first cn (conns (tp w)) with
  | Some l =>
      let w1 := with_tp (set_conns l) w in
      if ThriftConn.pooled (heap w1 !!! cn)
      then checkMinIdleConns (with_tp (λ p, set_poolSize (poolSize p - 1) p) w1)
      else w1
  | None => w
  end.

(** [func (tp *ThriftConnPool) Remove(cn *ThriftConn, reason error)] *)
Definition Remove (w : World) (cn : ptr) (reason : nilable_error) : option World :=
  let w1 := removeConn w cn in
  w2 ← freeTurn w1;
  Some (fst (cn_Close w2 cn)).

(** [func (tp *ThriftConnPool) CloseConn(cn *ThriftConn) error] *)
Definition CloseConn (w : World) (cn : ptr) : World * nilable_error :=
  cn_Close (removeConn w cn) cn.

(** [func (tp *ThriftConnPool) NewConn(pooled bool) ( *ThriftConn, error)].
    No result when [newConn] hands over a nil connection with a nil
    error, as for [addIdleConn]. *)
Definition NewConn (w : World) (pooled : bool) (d : DialResult)
    : option (World * (option ptr * nilable_error)) :=
  match newConn w pooled d with
  | (w1, (_, Some err)) => Some (w1, (None, Some err))
  | (w1, (Some cn, None)) =>
      let w2 := with_tp (λ p, set_conns (conns p ++ [cn]) p) w1 in
      let w3 :=
        if pooled then
          if decide (poolSize (tp w2) < PoolSize (opt (tp w2)))
          then with_tp (λ p, set_poolSize (poolSize p + 1) p) w2
          else with_heap (alter (ThriftConn.set_pooled false) cn) w2
        else w2 in
      Some (w3, (Some cn, None))
  | (w1, (None, None)) => None
  end.

(** [func (tp *ThriftConnPool) reapStaleConn() *ThriftConn] *)
Definition reapStaleConn (w : World) : World * option ptr :=
  match idleConns (tp w) with
  | [] => (w, None)
  | cn :: rest =>
      if negb (isStaleConn w cn) then (w, None)
      else (with_tp (λ p, set_idleConnsLen (idleConnsLen p - 1)
                            (set_idleConns rest p)) w, Some cn)
  end.

(** The [for] loop of [ReapStaleConns]; [n] counts the reaped
    connections.  Every turn removes an idle connection or ends the loop,
    so one turn more than there are idle connections is enough fuel. *)
Fixpoint ReapStaleConns_loop (fuel : nat) (w : World) (n : Z) : option (World * Z) :=
  match fuel with
  | O => None
  | S fuel' =>
      w1 ← getTurn w;
      let '(w2, cn) := reapStaleConn w1 in
      let w3 := match cn with Some c => removeConn w2 c | None => w2 end in
      w4 ← freeTurn w3;
      match cn with
      | Some c => ReapStaleConns_loop fuel' (fst (cn_Close w4 c)) (n + 1)
      | None => Some (w4, n)
      end
  end.

(** [func (tp *ThriftConnPool) ReapStaleConns() (int, error)]; the error
    is always nil. *)
Definition ReapStaleConns (w : World) : option (World * Z) :=
  ReapStaleConns_loop (S (length (idleConns (tp w)))) w 0.

(** One tick of [reaper]; the flag tells whether the goroutine left its
    loop. *)
Definition reaper (w : World) : option (World * bool) :=
  if closed w then Some (w, true)
  else
    '(w1, n) ← ReapStaleConns w;
    Some (with_tp (λ p, set_stats (add_StaleConns (u32 n) (stats p)) p) w1, false).

(** The [for] loop of [Get]. *)
Fixpoint Get_loop (fuel : nat) (w : World) : option (World * option ptr) :=
  match fuel with
  | O => None
  | S fuel' =>
      match popIdle w with
      | (w1, None) => Some (w1, None)
      | (w1, Some cn) =>
          if isStaleConn w1 cn
          then Get_loop fuel' (fst (CloseConn w1 cn))
          else Some (with_tp (λ p, set_stats (add_Hits 1 (stats p)) p) w1, Some cn)
      end
  end.

(** [func (tp *ThriftConnPool) Get() ( *ThriftConn, error)] *)
Definition Get (w : World) (d : DialResult)
    : option (World * (option ptr * nilable_error)) :=
  if closed w then Some (w, (None, Some ErrClosed))
  else
    match waitTurn w with
    | (w1, Some err) => Some (w1, (None, Some err))
    | (w1, None) =>
        '(w2, cn) ← Get_loop (S (length (idleConns (tp w1)))) w1;
        match cn with
        | Some c => Some (w2, (Some c, None))
        | None =>
            let w3 := with_tp (λ p, set_stats (add_Misses 1 (stats p)) p) w2 in
            '(w4, (newcn, err)) ← NewConn w3 true d;
            match err with
            | Some e => w5 ← freeTurn w4; Some (w5, (None, Some e))
            | None => Some (w4, (newcn, None))
            end
        end
    end.

(** [func (tp *ThriftConnPool) Put(cn *ThriftConn)] *)
Definition Put (w : World) (cn : ptr) : option World :=
  if negb (ThriftConn.pooled (heap w !!! cn)) then Remove w cn None
  else
    let w1 := fst (cn_UpdateUsedTime w cn) in
    let w2 := with_tp (λ p, set_idleConnsLen (idleConnsLen p + 1)
                              (set_idleConns (idleConns p ++ [cn]) p)) w1 in
    freeTurn w2.

(** The [for _, cn := range tp.conns] of [Close]. *)
Fixpoint Close_range (w : World) (l : list ptr) (firstErr : nilable_error)
    : World * nilable_error :=
  match l with
  | [] => (w, firstErr)
  | cn :: l' =>
      let '(w1, err) := cn_Close w cn in
      Close_range w1 l'
        (match err, firstErr with
         | Some e, None => Some e
         | _, _ => firstErr
         end)
  end.

(** [func (tp *ThriftConnPool) Close() error] *)
Definition Close (w : World) : World * nilable_error :=
  if decide (_closed (tp w) = 0) then
    let w0 := with_tp (set__closed 1) w in
    let '(w1, firstErr) := Close_range w0 (conns (tp w0)) None in
    (with_tp (λ p, set_idleConnsLen 0
                     (set_idleConns [] (set_poolSize 0 (set_conns [] p)))) w1,
     firstErr)
  else (w, Some ErrClosed).

(** [func NewThriftConnPool(opt *Options) *ThriftConnPool], in an empty
    store at instant [now].  [make] panics on a negative capacity. *)
Definition NewThriftConnPool (o : Options) (now : Z) : option World :=
  if decide (PoolSize o < 0) then None
  else
    let p := {| opt := o; dialErrorsNum := 0; lastDialError := None; queue := 0%nat;
                conns := []; idleConns := []; poolSize := 0; idleConnsLen := 0;
                stats := mkStats 0 0 0 0 0 0; _closed := 0 |} in
    let w := {| tp := p; heap := ∅; nextp := 0%nat; clock := now;
                goroutines := []; dials := 0%nat |} in
    let w1 := Nat.iter (Z.to_nat (MinIdleConns o)) checkMinIdleConns w in
    Some (if decide (IdleTimeout o > 0 ∧ IdleCheckFrequency o > 0)
          then go (GoReaper (IdleCheckFrequency o)) w1
          else w1).

(** ** Callers and scheduler

    A system is the world of the pool together with the connections that
    callers have checked out and not yet given back.  The caller contract
    is the one of the protocol layer: [Put] and [Remove] are only applied
    to a connection obtained from [Get] and still checked out. *)

Record System : Type := mkSystem {
  world : World;
  held : list ptr
}.

Inductive Label : Type :=
| LGet (d : DialResult)
| LPut (cn : ptr)
| LRemove (cn : ptr) (reason : nilable_error)
| LClose
| LAddIdleConn (d : DialResult)     (* a spawned [addIdleConn] runs *)
| LTryDial (d : DialResult)         (* one turn of the recovery loop *)
| LReaper (frequency : Z)           (* one tick of the reaper *)
| LSleep (dt : Z).                  (* time passes *)

Definition set_goroutines (gs : list Goroutine) (w : World) : World :=
  mkWorld (tp w) (heap w) (nextp w) (clock w) gs (dials w).

(** The goroutine [g] returns. *)
Definition exit (g : Goroutine) (w : World) : option World :=
  gs ← remove_first g (goroutines w);
  Some (set_goroutines gs w).

Definition exec (s : System) (l : Label) : option System :=
  match l with
  | LGet d =>
      '(w, (cn, err)) ← Get (world s) d;
      match cn, err with
      | Some c, None => Some (mkSystem w (c :: held s))
      | _, _ => Some (mkSystem w (held s))
      end
  | LPut cn =>
      h ← remove_first cn (held s);
      w ← Put (world s) cn;
      Some (mkSystem w h)
  | LRemove cn reason =>
      h ← remove_first cn (held s);
      w ← Remove (world s) cn reason;
      Some (mkSystem w h)
  | LClose => Some (mkSystem (fst (Close (world s))) (held s))
  | LAddIdleConn d =>
      if decide (GoAddIdleConn ∈ goroutines (world s)) then
        w ← addIdleConn (world s) d;
        w' ← exit GoAddIdleConn w;
        Some (mkSystem w' (held s))
      else None
  | LTryDial d =>
      if decide (GoTryDial ∈ goroutines (world s)) then
        let '(w, returned) := tryDial (world s) d in
        w' ← (if returned then exit GoTryDial w else Some w);
        Some (mkSystem w' (held s))
      else None
  | LReaper f =>
      if decide (GoReaper f ∈ goroutines (world s)) then
        match reaper (world s) with
        | Some (w, returned) =>
            w' ← (if returned then exit (GoReaper f) w else Some w);
            Some (mkSystem w' (held s))
        | None => None
        end
      else None
  | LSleep dt =>
      if decide (0 <= dt) then
        let w := world s in
        Some (mkSystem (mkWorld (tp w) (heap w) (nextp w) (clock w + dt)
                                (goroutines w) (dials w)) (held s))
      else None
  end.

Fixpoint run (s : System) (ls : list Label) : option System :=
  match ls with
  | [] => Some s
  | l :: ls' => s' ← exec s l; run s' ls'
  end.

(** The systems reached from a fresh pool by steps whose labels satisfy
    [allowed]. *)
Inductive reachable (allowed : Label → Prop) (o : Options) : System → Prop :=
| reachable_init now w :
    NewThriftConnPool o now = Some w →
    reachable allowed o (mkSystem w [])
| reachable_step s l s' :
    reachable allowed o s →
    allowed l →
    exec s l = Some s' →
    reachable allowed o s'.

Definition any_label (l : Label) : Prop := True.
Definition not_Close (l : Label) : Prop := l ≠ LClose.

(** * Invariants and example inputs *)

(** A pool with a five second idle timeout holding one connection that
    was last used at instant zero, looked at seven seconds later. *)
Definition stale_example : World :=
  {| tp := {| opt := mkOptions "localhost:9090" 0 0 0 0 (5 * Second) 0 0 1 0;
              dialErrorsNum := 0; lastDialError := None; queue := 0%nat;
              conns := [0%nat]; idleConns := [0%nat]; poolSize := 1;
              idleConnsLen := 1; stats := mkStats 0 0 0 0 0 0; _closed := 0 |};
     heap := {[ 0%nat := ThriftConn.mk "localhost:9090" false (mkTSocket None) 0 0 true ]};
     nextp := 1%nat; clock := 7 * Second; goroutines := []; dials := 1%nat |}.


(** Every address below [nextp] holds a connection object and no other
    address does. *)
Definition heap_ok (w : World) : Prop :=
  ∀ cn : ptr, is_Some (heap w !! cn) ↔ (cn < nextp w)%nat.

Definition is_pooled (w : World) (cn : ptr) : bool :=
  ThriftConn.pooled (heap w !!! cn).

(** The number of connections of [l] whose [pooled] flag is set. *)
Fixpoint pooled_count (w : World) (l : list ptr) : Z :=
  match l with
  | [] => 0
  | cn :: l' => (if is_pooled w cn then 1 else 0) + pooled_count w l'
  end.

(** What a step may change in the store: objects are only added, at fresh
    addresses, and the [pooled] flag of an existing object is never
    written again. *)
Record evolves (w w' : World) : Prop := {
  ev_opt : opt (tp w') = opt (tp w);
  ev_nextp : (nextp w ≤ nextp w')%nat;
  ev_heap : heap_ok w → heap_ok w';
  ev_pooled : ∀ cn, (cn < nextp w)%nat → is_pooled w' cn = is_pooled w cn;
  ev_closed : _closed (tp w') = _closed (tp w)
}.

(** The invariant of the bookkeeping.  [held] are the connections that
    are checked out, or in the hands of a method that has just taken them
    from the idle list.  The two inequalities are stated for an open pool. *)
Record Inv (w : World) (held : list ptr) : Prop := {
  inv_heap : heap_ok w;
  inv_conns : Forall (λ cn, (cn < nextp w)%nat) (conns (tp w));
  inv_idle : Forall (λ cn, (cn < nextp w)%nat) (idleConns (tp w));
  inv_held : Forall (λ cn, (cn < nextp w)%nat) held;
  inv_nodup : NoDup (conns (tp w));
  inv_idle_pooled : Forall (λ cn, is_pooled w cn = true) (idleConns (tp w));
  inv_cap : closed w = false → poolSize (tp w) <= PoolSize (opt (tp w));
  inv_slack : closed w = false →
              pooled_count w held <= poolSize (tp w) - idleConnsLen (tp w)
}.

(** The number of goroutines of kind [g] that are running. *)
Definition count_go (g : Goroutine) (w : World) : nat :=
  count_occ Goroutine_eq_dec (goroutines w) g.

(** A step that neither dials nor touches the state of the circuit
    breaker. *)
Record quiet (w w' : World) : Prop := {
  q_evolves : evolves w w';
  q_dialErrorsNum : dialErrorsNum (tp w') = dialErrorsNum (tp w);
  q_lastDialError : lastDialError (tp w') = lastDialError (tp w);
  q_tryDial : count_go GoTryDial w' = count_go GoTryDial w;
  q_dials : dials w' = dials w
}.

(** *** Example runs *)

Definition sock_ok : TSocket := mkTSocket None.
Definition dial_fail : DialResult := DialErr (ErrOther "connection refused").

(** Capacity two, one idle connection kept warm, five seconds of idle
    timeout, a reaper tick every second. *)
Definition example_opts : Options :=
  mkOptions "localhost:9090" 0 (5 * Second) 0 0 (5 * Second) Second Second 2 1.

(** The speculative dial of the constructor fails; two callers then check
    out a connection each.  The second one is an overflow connection. *)
Definition example_labels : list Label :=
  [LAddIdleConn dial_fail; LGet (DialOk sock_ok); LGet (DialOk sock_ok)].

Definition run_from (o : Options) (now : Z) (ls : list Label) : option System :=
  w ← NewThriftConnPool o now; run (mkSystem w []) ls.

Definition example_sys : System :=
  Eval vm_compute in
    default (mkSystem stale_example []) (run_from example_opts 0 example_labels).

(** What [cn.Close()] returns in the world [w]. *)
Definition close_result (w : World) (cn : ptr) : nilable_error :=
  let c := heap w !!! cn in
  if ThriftConn.closed c then None else closeResult (ThriftConn.socket c).

(** The first error in a sequence of results, nil if there is none. *)
Fixpoint first_error (l : list nilable_error) : nilable_error :=
  match l with
  | [] => None
  | Some e :: _ => Some e
  | None :: l' => first_error l'
  end.

(** Two connections are checked out, the second socket fails to close. *)
Definition sock_bad : TSocket := mkTSocket (Some (ErrOther "broken pipe")).

Definition close_labels : list Label :=
  [LAddIdleConn (DialOk sock_ok); LGet (DialOk sock_ok); LGet (DialOk sock_bad)].

Definition close_sys : System :=
  Eval vm_compute in
    default (mkSystem stale_example []) (run_from example_opts 0 close_labels).

(** The options of the README: only the address is given. *)
Definition readme_opts : Options :=
  mkOptions "127.0.0.1:9090" 0 0 0 0 0 0 0 0 0.

(** Capacity one, no idle floor: a caller checks a connection out, the
    pool is closed, the caller gives the connection back. *)
Definition one_opts : Options :=
  mkOptions "localhost:9090" 0 (5 * Second) 0 0 0 0 0 1 0.

Definition put_after_close_labels : list Label :=
  [LGet (DialOk sock_ok); LClose; LPut 0%nat].

(** The pool of [example_opts] as [NewThriftConnPool] has it before its
    replenishment loop. *)
Definition bare_example : World :=
  {| tp := {| opt := example_opts; dialErrorsNum := 0; lastDialError := None;
              queue := 0%nat; conns := []; idleConns := []; poolSize := 0;
              idleConnsLen := 0; stats := mkStats 0 0 0 0 0 0; _closed := 0 |};
     heap := ∅; nextp := 0%nat; clock := 0; goroutines := []; dials := 0%nat |}.

(** Capacity one with one idle connection kept warm. *)
Definition one_warm_opts : Options :=
  mkOptions "localhost:9090" 0 (5 * Second) 0 0 0 0 0 1 1.

(** The reservations of [checkMinIdleConns] that no connection will ever
    fill: counted in [idleConnsLen], not in [idleConns], and with no
    [addIdleConn] left to run for them. *)
Definition lost (w : World) : Z :=
  idleConnsLen (tp w) - Z.of_nat (length (idleConns (tp w)))
  - Z.of_nat (count_go GoAddIdleConn w).

Definition failed_addIdleConn (l : Label) : Prop :=
  ∃ e, l = LAddIdleConn (DialErr e).

(** *** The circuit breaker *)

(** [uint32(tp.opt.PoolSize)], the threshold of the breaker. *)
Definition threshold (w : World) : Z := u32 (PoolSize (opt (tp w))).

(** The test of [newConn]: the breaker is open and dials are skipped. *)
Definition tripped (w : World) : Prop := threshold w <= dialErrorsNum (tp w).

(** A turn of [tryDial] whose dial succeeds. *)
Definition recovery (l : Label) : Prop := ∃ sock, l = LTryDial (DialOk sock).

Record Breaker (w : World) : Prop := {
  br_range : 0 <= dialErrorsNum (tp w) <= threshold w;
  br_one : (count_go GoTryDial w ≤ 1)%nat;
  br_running : count_go GoTryDial w = 1%nat →
               0 < threshold w ∧ dialErrorsNum (tp w) = threshold w;
  br_started : closed w = false → 0 < threshold w →
               dialErrorsNum (tp w) = threshold w → count_go GoTryDial w = 1%nat;
  br_error : lastDialError (tp w) = None → dialErrorsNum (tp w) = 0
}.

(** Both dials fail: the speculative one of the constructor and the one of
    a [Get].  With capacity two the breaker is then open. *)
Definition tripped_labels : list Label :=
  [LAddIdleConn dial_fail; LGet dial_fail].

Definition tripped_sys : System :=
  Eval vm_compute in
    default (mkSystem stale_example []) (run_from example_opts 0 tripped_labels).

(** *** The loop of [Get] *)

(** What the turns of the loop of [Get] leave as it is: the clock, the
    options, the time every connection was last used, the gate, the closed
    flag of the pool, the store allocator, the dial count and the failure
    counter; connections that are closed stay closed and no connection is
    added to [conns] or [idleConns]. *)
Record settles (w w' : World) : Prop := {
  st_clock : clock w' = clock w;
  st_opt : opt (tp w') = opt (tp w);
  st_used : ∀ cn, cn_UsedTime w' cn = cn_UsedTime w cn;
  st_isclose : ∀ cn, cn_IsClose w cn = true → cn_IsClose w' cn = true;
  st_conns : ∀ cn, cn ∈ conns (tp w') → cn ∈ conns (tp w);
  st_queue : queue (tp w') = queue (tp w);
  st_flag : _closed (tp w') = _closed (tp w);
  st_idle : ∀ cn, cn ∈ idleConns (tp w') → cn ∈ idleConns (tp w);
  st_misses : Misses (stats (tp w')) = Misses (stats (tp w));
  st_nextp : nextp w' = nextp w;
  st_dials : dials w' = dials w;
  st_dialErrorsNum : dialErrorsNum (tp w') = dialErrorsNum (tp w)
}.

(** Two connections sit idle; six seconds later both are past the idle
    timeout of five seconds. *)
Definition lifo_labels : list Label :=
  [LAddIdleConn (DialOk sock_ok); LGet (DialOk sock_ok);
   LAddIdleConn (DialOk sock_ok); LPut 0%nat; LSleep (6 * Second)].

Definition lifo_sys : System :=
  Eval vm_compute in
    default (mkSystem stale_example []) (run_from example_opts 0 lifo_labels).
(** * Properties *)

(** ** Staleness *)

Lemma Time_Sub_ge (now used d : Z) :
  0 < d → d <= maxDuration → (Time_Sub now used >= d ↔ now - used >= d).
Proof.
  unfold Time_Sub, maxDuration, minDuration. intros Hd Hmax. lia.
Qed.

(** C9.  [isStaleConn] answers true exactly when the time since the
    connection was last used has reached the idle timeout, and it answers
    false for every connection at every instant when the timeout is zero
    or negative.  The timeout is a [time.Duration], hence at most
    [maxDuration]. *)
Theorem isStaleConn_iff (w : World) (cn : ptr) :
  IdleTimeout (opt (tp w)) <= maxDuration →
  (0 < IdleTimeout (opt (tp w)) →
     (isStaleConn w cn = true ↔
      clock w - cn_UsedTime w cn >= IdleTimeout (opt (tp w))))
  ∧ (IdleTimeout (opt (tp w)) <= 0 → isStaleConn w cn = false).
Proof.
  intros Hmax. unfold isStaleConn. split.
  - intros Hpos. rewrite <- (Time_Sub_ge _ _ _ Hpos Hmax).
    destruct (decide (IdleTimeout (opt (tp w)) = 0)) as [?|_]; [lia|].
    destruct (decide _) as [[_ H]|H]; [tauto|].
    split; [discriminate|]. intros. exfalso. apply H. split; lia.
  - intros Hle.
    destruct (decide (IdleTimeout (opt (tp w)) = 0)) as [?|_]; [done|].
    destruct (decide _) as [[H _]|_]; [lia|done].
Qed.

Lemma isStaleConn_iff_witness : isStaleConn stale_example 0%nat = true.
Proof.
  apply (isStaleConn_iff stale_example 0%nat); vm_compute; congruence.
Defined.

(** ** The store *)

Lemma evolves_refl w : evolves w w.
Proof. by split. Qed.

Lemma evolves_trans w1 w2 w3 : evolves w1 w2 → evolves w2 w3 → evolves w1 w3.
Proof.
  intros [] []. split; try congruence; try lia; [tauto|].
  intros cn Hcn. rewrite ev_pooled1 by lia. auto.
Qed.

Lemma pooled_alter (f : ThriftConn.t → ThriftConn.t) (h : gmap ptr ThriftConn.t)
    (cn cn' : ptr) :
  (∀ c, ThriftConn.pooled (f c) = ThriftConn.pooled c) →
  ThriftConn.pooled (alter f cn h !!! cn') = ThriftConn.pooled (h !!! cn').
Proof.
  intros Hf. rewrite !lookup_total_alt, lookup_alter.
  case_decide; [subst|done]. destruct (h !! cn'); simpl; auto.
Qed.

Lemma is_Some_alter (f : ThriftConn.t → ThriftConn.t) (h : gmap ptr ThriftConn.t)
    (cn cn' : ptr) :
  is_Some (alter f cn h !! cn') ↔ is_Some (h !! cn').
Proof.
  rewrite lookup_alter. case_decide; [subst|done]. by rewrite fmap_is_Some.
Qed.

Lemma evolves_alter (f : ThriftConn.t → ThriftConn.t) (cn : ptr) (w : World) :
  (∀ c, ThriftConn.pooled (f c) = ThriftConn.pooled c) →
  evolves w (with_heap (alter f cn) w).
Proof.
  intros Hf. split; simpl; try done.
  - unfold heap_ok. simpl. intros Hok cn'. rewrite is_Some_alter. apply Hok.
  - intros cn' _. unfold is_pooled. simpl. by apply pooled_alter.
Qed.

Lemma evolves_with_tp (f : ThriftConnPool → ThriftConnPool) (w : World) :
  opt (f (tp w)) = opt (tp w) → _closed (f (tp w)) = _closed (tp w) →
  evolves w (with_tp f w).
Proof. intros. by split. Qed.

Lemma evolves_go g w : evolves w (go g w).
Proof. by split. Qed.

Lemma cn_Close_evolves w cn : evolves w (fst (cn_Close w cn)).
Proof.
  unfold cn_Close. case_match; simpl; [apply evolves_refl|].
  by apply evolves_alter.
Qed.

Lemma cn_Close_tp w cn : tp (fst (cn_Close w cn)) = tp w.
Proof. unfold cn_Close. by case_match. Qed.

Lemma cn_Close_goroutines w cn : goroutines (fst (cn_Close w cn)) = goroutines w.
Proof. unfold cn_Close. by case_match. Qed.

Lemma cn_Close_closed w cn :
  is_Some (heap w !! cn) → cn_IsClose (fst (cn_Close w cn)) cn = true.
Proof.
  intros [c Hc]. unfold cn_Close, cn_IsClose.
  destruct (ThriftConn.closed (heap w !!! cn)) eqn:E; simpl; [done|].
  rewrite lookup_total_alt, lookup_alter. case_decide; [|done]. by rewrite Hc.
Qed.

Lemma cn_UpdateUsedTime_evolves w cn : evolves w (fst (cn_UpdateUsedTime w cn)).
Proof. by apply evolves_alter. Qed.

Lemma NewThriftConn_evolves endpoint dt d w :
  evolves w (fst (NewThriftConn endpoint dt d w)).
Proof.
  destruct d as [sock|e]; simpl; [|by split].
  split; simpl; try done; try lia.
  - unfold heap_ok. simpl. intros Hok cn. rewrite lookup_insert. case_decide.
    + subst. split; [lia|]. intros _. by eexists.
    + rewrite Hok. lia.
  - intros cn Hcn. unfold is_pooled. simpl.
    rewrite lookup_total_insert_ne; [done|lia].
Qed.

Lemma checkMinIdleConns_evolves w : evolves w (checkMinIdleConns w).
Proof. unfold checkMinIdleConns. repeat case_decide; by split. Qed.

(** ** Lists *)

Section RemoveFirst.
Context {A : Type} `{EqDecision A}.
Implicit Types (x : A) (l : list A).

Lemma remove_first_None x l : remove_first x l = None ↔ x ∉ l.
Proof.
  induction l as [|c l IH]; simpl.
  - split; [intros _; apply not_elem_of_nil|done].
  - rewrite not_elem_of_cons. case_decide as Hc; [subst|].
    + split; [done|]. intros [? _]. done.
    + destruct (remove_first x l).
      * split; [done|]. intros [_ Hx]. by apply IH in Hx.
      * split; [|done]. intros _. split; [congruence|by apply IH].
Qed.

Lemma remove_first_Some x l l' :
  remove_first x l = Some l' → ∃ l1 l2, l = l1 ++ x :: l2 ∧ l' = l1 ++ l2 ∧ x ∉ l1.
Proof.
  revert l'. induction l as [|c l IH]; simpl; intros l' H; [done|].
  case_decide as Hc.
  - simplify_eq. exists [], l'. split_and!; [done..|apply not_elem_of_nil].
  - destruct (remove_first x l) as [r|] eqn:E; [|done]. simplify_eq.
    destruct (IH r eq_refl) as (l1 & l2 & -> & -> & Hx).
    exists (c :: l1), l2. split_and!; [done..|].
    rewrite not_elem_of_cons. split; congruence.
Qed.

Lemma remove_first_elem_of x l : x ∈ l → is_Some (remove_first x l).
Proof.
  intros Hx. destruct (remove_first x l) eqn:E; [by eexists|].
  by apply remove_first_None in E.
Qed.

Lemma remove_first_Forall (P : A → Prop) x l l' :
  remove_first x l = Some l' → Forall P l → Forall P l' ∧ P x.
Proof.
  intros (l1 & l2 & -> & -> & _)%remove_first_Some.
  rewrite !Forall_app, Forall_cons. tauto.
Qed.

Lemma remove_first_NoDup x l l' :
  remove_first x l = Some l' → NoDup l → NoDup l' ∧ x ∉ l'.
Proof.
  intros (l1 & l2 & -> & -> & Hx)%remove_first_Some.
  rewrite !NoDup_app, NoDup_cons. intros (H1 & H2 & H3 & H4). split.
  - split_and!; [done| |done]. intros y Hy Hy2. apply (H2 y Hy). by right.
  - rewrite elem_of_app. intros [?|?]; [|done].
    apply (H2 x); [done|]. by left.
Qed.

Lemma remove_first_length x l l' :
  remove_first x l = Some l' → length l = S (length l').
Proof.
  intros (l1 & l2 & -> & -> & _)%remove_first_Some.
  rewrite !length_app. simpl. lia.
Qed.
End RemoveFirst.

Lemma pooled_count_app w l1 l2 :
  pooled_count w (l1 ++ l2) = pooled_count w l1 + pooled_count w l2.
Proof. induction l1 as [|c l1 IH]; simpl; lia. Qed.

Lemma pooled_count_nonneg w l : 0 <= pooled_count w l.
Proof. induction l as [|c l IH]; simpl; [lia|]. case_match; lia. Qed.

Lemma pooled_count_remove_first w cn l l' :
  remove_first cn l = Some l' →
  pooled_count w l = (if is_pooled w cn then 1 else 0) + pooled_count w l'.
Proof.
  intros (l1 & l2 & -> & -> & _)%remove_first_Some.
  rewrite !pooled_count_app. simpl. lia.
Qed.

Lemma pooled_count_evolves w w' l :
  evolves w w' → Forall (λ cn, (cn < nextp w)%nat) l →
  pooled_count w' l = pooled_count w l.
Proof.
  intros Hev. induction 1 as [|c l Hc _ IH]; simpl; [done|].
  by rewrite IH, (ev_pooled _ _ Hev).
Qed.

(** ** The bookkeeping invariant through the methods *)

Lemma closed_evolves w w' : evolves w w' → closed w' = closed w.
Proof. intros Hev. unfold closed. by rewrite (ev_closed _ _ Hev). Qed.

Lemma Forall_lt_mono (n m : nat) (l : list ptr) :
  (n ≤ m)%nat → Forall (λ cn, (cn < n)%nat) l → Forall (λ cn, (cn < m)%nat) l.
Proof. intros Hnm Hl. eapply Forall_impl; [done|]. intros; simpl in *; lia. Qed.

Lemma Forall_pooled_evolves w w' (l : list ptr) :
  evolves w w' → Forall (λ cn, (cn < nextp w)%nat) l →
  Forall (λ cn, is_pooled w cn = true) l → Forall (λ cn, is_pooled w' cn = true) l.
Proof.
  intros Hev Hl Hp. induction Hl as [|c l Hc _ IH]; [constructor|].
  inversion_clear Hp. constructor; [|auto].
  by rewrite (ev_pooled _ _ Hev).
Qed.

Lemma Inv_frame w w' held :
  evolves w w' →
  conns (tp w') = conns (tp w) → idleConns (tp w') = idleConns (tp w) →
  poolSize (tp w') = poolSize (tp w) → idleConnsLen (tp w') = idleConnsLen (tp w) →
  Inv w held → Inv w' held.
Proof.
  intros Hev Hc Hi Hp Hl [].
  pose proof (ev_nextp _ _ Hev) as Hn.
  split; rewrite ?Hc, ?Hi, ?Hp, ?Hl, ?(ev_opt _ _ Hev), ?(closed_evolves _ _ Hev);
    eauto using Forall_lt_mono, Forall_pooled_evolves.
  - by apply (ev_heap _ _ Hev).
  - rewrite (pooled_count_evolves w w') by done. done.
Qed.

Lemma Inv_held_perm w cn held held' :
  remove_first cn held = Some held' → Inv w held → Inv w (cn :: held').
Proof.
  intros Hrm []. split; try done.
  - apply (remove_first_Forall _ _ _ _ Hrm) in inv_held0 as [? ?]. by constructor.
  - intros Hcl. specialize (inv_slack0 Hcl).
    rewrite (pooled_count_remove_first _ _ _ _ Hrm) in inv_slack0. done.
Qed.

Lemma checkMinIdleConns_Inv w held : Inv w held → Inv (checkMinIdleConns w) held.
Proof.
  intros HI. pose proof HI as [].
  unfold checkMinIdleConns. repeat case_decide; try done.
  split; simpl; try done.
  - intros Hcl. unfold closed in *. simpl in *. lia.
  - intros Hcl. specialize (inv_slack0 Hcl).
    rewrite (pooled_count_evolves w) by (done || by split). lia.
Qed.

Lemma popIdle_None w w1 :
  popIdle w = (w1, None) → w1 = w ∧ idleConns (tp w) = [].
Proof.
  unfold popIdle. destruct (last (idleConns (tp w))) eqn:E; [done|].
  intros [= <-]. split; [done|]. by apply last_None.
Qed.

Lemma popIdle_Some w w1 cn :
  popIdle w = (w1, Some cn) →
  ∃ l, idleConns (tp w) = l ++ [cn] ∧
       w1 = checkMinIdleConns
              (with_tp (λ p, set_idleConnsLen (idleConnsLen p - 1)
                               (set_idleConns l p)) w).
Proof.
  unfold popIdle. destruct (last (idleConns (tp w))) as [c|] eqn:E; [|done].
  intros [= <- <-]. apply last_Some in E as [l Hl]. exists l. split; [done|].
  unfold with_tp. simpl. rewrite Hl, length_app. simpl.
  replace (length l + 1 - 1)%nat with (length l) by lia.
  by rewrite take_app_length.
Qed.

Lemma popIdle_Inv w w1 cn held :
  Inv w held → popIdle w = (w1, Some cn) → Inv w1 (cn :: held).
Proof.
  intros [] (l & Hl & ->)%popIdle_Some.
  rewrite Hl, Forall_app, Forall_singleton in inv_idle0, inv_idle_pooled0.
  apply checkMinIdleConns_Inv. split; simpl; try tauto.
  - constructor; tauto.
  - intros Hcl. specialize (inv_slack0 Hcl). destruct inv_idle_pooled0 as [_ Hp].
    unfold is_pooled in *. simpl in *. rewrite Hp.
    rewrite (pooled_count_evolves w) by (done || by split). lia.
Qed.

Lemma removeConn_Inv w cn held :
  Inv w (cn :: held) → Inv (removeConn w cn) held.
Proof.
  intros HI. pose proof HI as [].
  inversion_clear inv_held0 as [|?? Hcn Hheld].
  pose proof (pooled_count_nonneg w held) as Hnn.
  unfold removeConn. destruct (remove_first cn (conns (tp w))) as [l|] eqn:E.
  - apply remove_first_Forall with (P := λ cn, (cn < nextp w)%nat) in E as HF; [|done].
    apply remove_first_NoDup in E as HN; [|done].
    simpl. fold (is_pooled w cn). destruct (is_pooled w cn) eqn:Ep.
    + apply checkMinIdleConns_Inv. split; simpl; try tauto.
      * intros Hcl. specialize (inv_cap0 Hcl). lia.
      * intros Hcl. specialize (inv_slack0 Hcl). simpl in inv_slack0.
        rewrite Ep in inv_slack0.
        rewrite (pooled_count_evolves w) by (done || by split). lia.
    + split; simpl; try tauto.
      intros Hcl. specialize (inv_slack0 Hcl). simpl in inv_slack0.
      rewrite Ep in inv_slack0.
      rewrite (pooled_count_evolves w) by (done || by split). lia.
  - split; try done. intros Hcl. specialize (inv_slack0 Hcl). simpl in inv_slack0.
    destruct (is_pooled w cn); lia.
Qed.

Lemma cn_Close_Inv w cn held : Inv w held → Inv (fst (cn_Close w cn)) held.
Proof.
  apply Inv_frame; [apply cn_Close_evolves|by rewrite cn_Close_tp..].
Qed.

Lemma CloseConn_Inv w cn held :
  Inv w (cn :: held) → Inv (fst (CloseConn w cn)) held.
Proof. intros. unfold CloseConn. by apply cn_Close_Inv, removeConn_Inv. Qed.

Lemma Inv_stats w held f :
  Inv w held → Inv (with_tp (λ p, set_stats (f (stats p)) p) w) held.
Proof. apply Inv_frame; (done || by split). Qed.

Lemma Inv_queue w held n : Inv w held → Inv (with_tp (set_queue n) w) held.
Proof. apply Inv_frame; (done || by split). Qed.

Lemma Get_loop_Inv fuel w w' r held :
  Inv w held → Get_loop fuel w = Some (w', r) →
  match r with Some cn => Inv w' (cn :: held) | None => Inv w' held end.
Proof.
  revert w. induction fuel as [|fuel IH]; intros w HI; simpl; [done|].
  destruct (popIdle w) as [w1 [cn|]] eqn:Ep.
  - pose proof (popIdle_Inv _ _ _ _ HI Ep) as HI1.
    destruct (isStaleConn w1 cn).
    + apply IH. by apply CloseConn_Inv.
    + intros [= <- <-]. by apply Inv_stats.
  - intros [= <- <-]. by apply popIdle_None in Ep as [-> _].
Qed.

Lemma newConn_spec w pooled d w' cn err :
  newConn w pooled d = (w', (cn, err)) →
  evolves w w' ∧ conns (tp w') = conns (tp w) ∧ idleConns (tp w') = idleConns (tp w)
  ∧ poolSize (tp w') = poolSize (tp w) ∧ idleConnsLen (tp w') = idleConnsLen (tp w)
  ∧ queue (tp w') = queue (tp w)
  ∧ match cn, err with
    | Some c, None => c = nextp w ∧ nextp w' = S (nextp w) ∧ is_pooled w' c = pooled
                      ∧ is_Some (heap w' !! c)
    | None, None => w' = w
    | None, Some _ => True
    | Some _, Some _ => False
    end.
Proof.
  unfold newConn. destruct (closed w); [intros [= <- <- <-]; by auto using evolves_refl|].
  case_decide; [intros [= <- <- <-]; destruct (getLastDialError w);
                  by auto using evolves_refl|].
  destruct d as [sock|e]; simpl.
  - intros [= <- <- <-]. simpl. split_and!; try done.
    + split; simpl; try done; try lia.
      * unfold heap_ok. simpl. intros Hok c. rewrite is_Some_alter, lookup_insert.
        case_decide; [subst; split; [lia|by eexists]|]. rewrite Hok. lia.
      * intros c Hc. unfold is_pooled. simpl.
        rewrite lookup_total_alter_ne, lookup_total_insert_ne by lia. done.
    + unfold is_pooled. simpl. by rewrite lookup_total_alter_eq, lookup_insert_eq.
    + by rewrite is_Some_alter, lookup_insert_eq.
  - case_decide; intros [= <- <- <-]; simpl; split_and!; try done; by split.
Qed.

Lemma newConn_Inv w pooled d w' r held :
  newConn w pooled d = (w', r) → Inv w held → Inv w' held.
Proof.
  destruct r as [cn err]. intros (? & ? & ? & ? & ? & _)%newConn_spec.
  by apply Inv_frame.
Qed.

Lemma evolves_unpool_top w w1 c :
  evolves w w1 → (nextp w ≤ c)%nat →
  evolves w (with_heap (alter (ThriftConn.set_pooled false) c) w1).
Proof.
  intros [] Hc. split; simpl; try done.
  - unfold heap_ok. simpl. intros Hok c'. rewrite is_Some_alter. by apply ev_heap0.
  - intros c' Hc'. unfold is_pooled in *. simpl.
    rewrite lookup_total_alter_ne by lia. by apply ev_pooled0.
Qed.

Lemma Forall_lt_not_elem (n : nat) (l : list ptr) :
  Forall (λ cn, (cn < n)%nat) l → n ∉ l.
Proof. rewrite Forall_forall. intros H Hn. apply H in Hn. lia. Qed.

Lemma NewConn_Inv w pooled d w' cn err held :
  Inv w held → NewConn w pooled d = Some (w', (cn, err)) →
  match cn, err with
  | Some c, None => Inv w' (c :: held)
  | _, _ => Inv w' held
  end.
Proof.
  intros HI. unfold NewConn.
  destruct (newConn w pooled d) as [w1 [cn1 err1]] eqn:En.
  pose proof (newConn_Inv _ _ _ _ _ _ En HI) as HI1.
  apply newConn_spec in En as (Hev & Hc & Hi & Hp & Hl & _ & Hr).
  destruct cn1 as [c|], err1 as [e|]; try done; try by intros [= <- <- <-].
  destruct Hr as (-> & Hn & Hpool & Hsome).
  intros [= <- <- <-]. destruct HI, HI1.
  assert (nextp w ∉ conns (tp w1)) by (rewrite Hc; by apply Forall_lt_not_elem).
  assert (∀ w2, nextp w2 = nextp w1 →
            Forall (λ cn, (cn < nextp w2)%nat) (conns (tp w1) ++ [nextp w])) as Hcs.
  { intros w2 ->. rewrite Forall_app, Forall_singleton. split; [done|lia]. }
  assert (NoDup (conns (tp w1) ++ [nextp w])) as Hnd.
  { rewrite NoDup_app. split_and!; [done| |apply NoDup_singleton].
    intros x Hx ->%list_elem_of_singleton. done. }
  assert (∀ w2, nextp w2 = nextp w1 →
            Forall (λ cn, (cn < nextp w2)%nat) (nextp w :: held)) as Hh.
  { intros w2 ->. constructor; [lia|done]. }
  destruct pooled; [case_decide|].
  - split; simpl; auto.
    + intros Hcl. lia.
    + intros Hcl. specialize (inv_slack1 Hcl). unfold is_pooled in *. simpl.
      rewrite Hpool.
      erewrite (pooled_count_evolves w1); [lia|by split|done].
  - assert (evolves w (with_tp (λ p, set_conns (conns p ++ [nextp w]) p) w1)) as Hev2
      by (eapply evolves_trans; [exact Hev|by split]).
    pose proof (evolves_unpool_top w _ (nextp w) Hev2 (le_n _)) as Hev3.
    split; simpl; auto.
    + by apply (ev_heap _ _ Hev3).
    + eapply Forall_pooled_evolves; [exact Hev3| |]; by rewrite Hi.
    + intros Hcl. specialize (inv_slack1 Hcl).
      rewrite (pooled_count_evolves w w1) in inv_slack1 by done.
      replace (is_pooled _ (nextp w)) with false.
      * rewrite (pooled_count_evolves w) by done. lia.
      * unfold is_pooled. simpl. rewrite lookup_total_alter_eq.
        destruct Hsome as [c ->]. done.
  - split; simpl; auto.
    intros Hcl. specialize (inv_slack1 Hcl). unfold is_pooled in *. simpl.
    rewrite Hpool. erewrite (pooled_count_evolves w1); [lia|by split|done].
Qed.

Lemma addIdleConn_Inv w d w' held :
  Inv w held → addIdleConn w d = Some w' → Inv w' held.
Proof.
  intros HI. unfold addIdleConn.
  destruct (newConn w true d) as [w1 [cn1 err1]] eqn:En.
  pose proof (newConn_Inv _ _ _ _ _ _ En HI) as HI1.
  apply newConn_spec in En as (Hev & Hc & Hi & Hp & Hl & _ & Hr).
  destruct cn1 as [c|], err1 as [e|]; try done; try by intros [= <-].
  destruct Hr as (-> & Hn & Hpool & Hsome). intros [= <-].
  destruct HI, HI1. split; simpl; auto.
  - rewrite Forall_app, Forall_singleton. split; [done|lia].
  - rewrite Forall_app, Forall_singleton. split; [done|lia].
  - rewrite NoDup_app. split_and!; [done| |apply NoDup_singleton].
    intros x Hx ->%list_elem_of_singleton. revert Hx. rewrite Hc.
    by apply Forall_lt_not_elem.
  - rewrite Forall_app, Forall_singleton. done.
  - intros Hcl. specialize (inv_slack1 Hcl).
    erewrite (pooled_count_evolves w1); [lia|by split|done].
Qed.

Lemma tryDial_evolves w d : evolves w (fst (tryDial w d)).
Proof.
  unfold tryDial. destruct (closed w); [apply evolves_refl|].
  pose proof (NewThriftConn_evolves (Addr (opt (tp w))) (DialTimeout (opt (tp w))) d w) as Hev.
  destruct (NewThriftConn _ _ d w) as [w1 [conn|err]]; simpl in *.
  - eapply evolves_trans; [exact Hev|].
    eapply evolves_trans; [|apply cn_Close_evolves]. by split.
  - eapply evolves_trans; [exact Hev|]. by split.
Qed.

Lemma NewThriftConn_tp endpoint dt d w :
  tp (fst (NewThriftConn endpoint dt d w)) = tp w.
Proof. by destruct d. Qed.

Lemma tryDial_Inv w d held : Inv w held → Inv (fst (tryDial w d)) held.
Proof.
  apply Inv_frame; [apply tryDial_evolves|..]; unfold tryDial;
    destruct (closed w); try done;
    pose proof (NewThriftConn_tp (Addr (opt (tp w))) (DialTimeout (opt (tp w))) d w) as Htp;
    destruct (NewThriftConn _ _ d w) as [w1 [conn|err]]; simpl in *;
    rewrite ?cn_Close_tp; simpl; by rewrite Htp.
Qed.

Lemma freeTurn_Inv w w' held : Inv w held → freeTurn w = Some w' → Inv w' held.
Proof.
  unfold freeTurn. destruct (queue (tp w)); [done|]. intros HI [= <-].
  by apply Inv_queue.
Qed.

Lemma getTurn_Inv w w' held : Inv w held → getTurn w = Some w' → Inv w' held.
Proof.
  unfold getTurn. case_decide; [|done]. intros HI [= <-]. by apply Inv_queue.
Qed.

Lemma waitTurn_Inv w held : Inv w held → Inv (fst (waitTurn w)) held.
Proof.
  unfold waitTurn. case_decide; simpl; intros HI.
  - by apply Inv_queue.
  - by apply (Inv_stats _ _ (add_Timeouts 1)).
Qed.

Lemma Get_Inv w d w' cn err held :
  Inv w held → Get w d = Some (w', (cn, err)) →
  match cn, err with
  | Some c, None => Inv w' (c :: held)
  | _, _ => Inv w' held
  end.
Proof.
  intros HI. unfold Get. destruct (closed w); [by intros [= <- <- <-]|].
  pose proof (waitTurn_Inv _ _ HI) as HI1.
  destruct (waitTurn w) as [w1 [e|]]; [by intros [= <- <- <-]|]. simpl in HI1.
  destruct (Get_loop _ w1) as [[w2 r]|] eqn:Eg; [|done]. simpl.
  pose proof (Get_loop_Inv _ _ _ _ _ HI1 Eg) as HI2.
  destruct r as [c|]; [by intros [= <- <- <-]|].
  apply (Inv_stats _ _ (add_Misses 1)) in HI2.
  destruct (NewConn _ true d) as [[w4 [newcn err']]|] eqn:En; [|done]. simpl.
  pose proof (NewConn_Inv _ _ _ _ _ _ _ HI2 En) as HI4.
  destruct err' as [e|].
  - destruct (freeTurn w4) as [w5|] eqn:Ef; [|done]. simpl. intros [= <- <- <-].
    eapply freeTurn_Inv; [|exact Ef]. by destruct newcn.
  - intros [= <- <- <-]. done.
Qed.

Lemma Remove_Inv w cn reason w' held :
  Inv w (cn :: held) → Remove w cn reason = Some w' → Inv w' held.
Proof.
  intros HI. unfold Remove. apply removeConn_Inv in HI.
  destruct (freeTurn _) as [w2|] eqn:Ef; [|done]. simpl. intros [= <-].
  eapply cn_Close_Inv, freeTurn_Inv; done.
Qed.

Lemma Put_Inv w cn w' held :
  Inv w (cn :: held) → Put w cn = Some w' → Inv w' held.
Proof.
  intros HI. unfold Put. fold (is_pooled w cn).
  destruct (is_pooled w cn) eqn:Ep; simpl; [|by apply Remove_Inv].
  intros Hf. eapply freeTurn_Inv; [|exact Hf]. clear Hf.
  destruct HI. inversion_clear inv_held0.
  assert (evolves w (with_tp (λ p, set_idleConnsLen (idleConnsLen p + 1)
                                    (set_idleConns (idleConns p ++ [cn]) p))
                       (with_heap (alter (ThriftConn.set_usedTime (clock w)) cn) w)))
    as Hev.
  { eapply evolves_trans; [|by apply evolves_with_tp]. by apply evolves_alter. }
  split; simpl; auto.
  - by apply (ev_heap _ _ Hev).
  - rewrite Forall_app, Forall_singleton. done.
  - rewrite Forall_app, Forall_singleton. split.
    + eapply Forall_pooled_evolves; [exact Hev|done..].
    + by rewrite (ev_pooled _ _ Hev).
  - intros Hcl. specialize (inv_slack0 Hcl). simpl in inv_slack0.
    rewrite Ep in inv_slack0.
    erewrite (pooled_count_evolves w); [lia|exact Hev|done].
Qed.

Lemma reapStaleConn_None w w1 : reapStaleConn w = (w1, None) → w1 = w.
Proof.
  unfold reapStaleConn. destruct (idleConns (tp w)); [by intros [= <-]|].
  destruct (negb _); [by intros [= <-]|done].
Qed.

Lemma reapStaleConn_Inv w w1 cn held :
  Inv w held → reapStaleConn w = (w1, Some cn) → Inv w1 (cn :: held).
Proof.
  intros []. unfold reapStaleConn.
  destruct (idleConns (tp w)) as [|c rest] eqn:Ei; [done|].
  destruct (negb _); [done|]. intros [= <- <-].
  inversion_clear inv_idle0. inversion_clear inv_idle_pooled0.
  split; simpl; auto.
  intros Hcl. specialize (inv_slack0 Hcl). unfold is_pooled in *. simpl.
  replace (ThriftConn.pooled (heap w !!! c)) with true by done.
  erewrite (pooled_count_evolves w); [lia|by split|done].
Qed.

Lemma ReapStaleConns_loop_Inv fuel w n w' n' held :
  Inv w held → ReapStaleConns_loop fuel w n = Some (w', n') → Inv w' held.
Proof.
  revert w n. induction fuel as [|fuel IH]; intros w n HI; simpl; [done|].
  destruct (getTurn w) as [w1|] eqn:Eg; [|done]. simpl.
  apply (getTurn_Inv _ _ _ HI) in Eg.
  destruct (reapStaleConn w1) as [w2 [c|]] eqn:Er.
  - pose proof (reapStaleConn_Inv _ _ _ _ Eg Er) as HI2.
    apply removeConn_Inv in HI2.
    destruct (freeTurn _) as [w4|] eqn:Ef; [|done]. simpl.
    apply IH. eapply cn_Close_Inv, freeTurn_Inv; done.
  - apply reapStaleConn_None in Er as ->.
    destruct (freeTurn _) as [w4|] eqn:Ef; [|done]. simpl. intros [= <- <-].
    eapply freeTurn_Inv; done.
Qed.

Lemma reaper_Inv w w' b held :
  Inv w held → reaper w = Some (w', b) → Inv w' held.
Proof.
  intros HI. unfold reaper. destruct (closed w); [by intros [= <- <-]|].
  unfold ReapStaleConns.
  destruct (ReapStaleConns_loop _ w 0) as [[w1 n]|] eqn:Er; [|done]. simpl.
  intros [= <- <-]. apply (Inv_stats _ _ (add_StaleConns (u32 n))).
  by eapply ReapStaleConns_loop_Inv.
Qed.

Lemma Close_range_evolves w l fe : evolves w (fst (Close_range w l fe)).
Proof.
  revert w fe. induction l as [|cn l IH]; intros w fe; simpl; [apply evolves_refl|].
  pose proof (cn_Close_evolves w cn) as Hev.
  destruct (cn_Close w cn) as [w1 err]. simpl in Hev.
  eapply evolves_trans; [exact Hev|apply IH].
Qed.

Lemma Close_range_tp w l fe : tp (fst (Close_range w l fe)) = tp w.
Proof.
  revert w fe. induction l as [|cn l IH]; intros w fe; simpl; [done|].
  pose proof (cn_Close_tp w cn) as Htp.
  destruct (cn_Close w cn) as [w1 err]. simpl in Htp. by rewrite IH.
Qed.

Lemma Close_Inv w held : Inv w held → Inv (fst (Close w)) held.
Proof.
  intros HI. unfold Close. case_decide as Hc; [|done].
  set (w0 := with_tp (set__closed 1) w).
  pose proof (Close_range_evolves w0 (conns (tp w0)) None) as Hev.
  pose proof (Close_range_tp w0 (conns (tp w0)) None) as Htp.
  destruct (Close_range w0 _ None) as [w1 fe]. simpl in *.
  destruct HI. pose proof (ev_nextp _ _ Hev) as Hn. simpl in Hn.
  split; simpl; rewrite ?Htp; simpl; auto using NoDup_nil_2.
  - apply (ev_heap _ _ Hev). done.
  - by eapply Forall_lt_mono.
  - unfold closed. simpl. rewrite Htp. done.
  - unfold closed. simpl. rewrite Htp. done.
Qed.

Lemma exit_Inv g w w' held : Inv w held → exit g w = Some w' → Inv w' held.
Proof.
  unfold exit. destruct (remove_first g _); [|done]. simpl. intros HI [= <-].
  revert HI. apply Inv_frame; done || by split.
Qed.

Lemma NewThriftConnPool_Inv o now w :
  NewThriftConnPool o now = Some w → Inv w [].
Proof.
  unfold NewThriftConnPool. case_decide as Hp; [done|]. intros [= <-].
  match goal with |- Inv (if _ then go _ ?w1 else _) _ => assert (Inv w1 []) as HI end.
  { induction (Z.to_nat (MinIdleConns o)) as [|n IH]; simpl.
    - split; simpl; auto using NoDup_nil_2; try lia.
      intros cn. simpl. rewrite lookup_empty. split; [by intros []|lia].
    - by apply checkMinIdleConns_Inv. }
  case_decide; [|done]. revert HI. apply Inv_frame; done || by split.
Qed.

Lemma exec_Inv s l s' :
  Inv (world s) (held s) → exec s l = Some s' → Inv (world s') (held s').
Proof.
  intros HI. destruct l; simpl.
  - destruct (Get (world s) d) as [[w [cn err]]|] eqn:Eg; [|done]. simpl.
    pose proof (Get_Inv _ _ _ _ _ _ HI Eg) as HI'.
    destruct cn, err; by intros [= <-].
  - destruct (remove_first cn (held s)) as [h|] eqn:Eh; [|done]. simpl.
    destruct (Put (world s) cn) as [w|] eqn:Ep; [|done]. simpl. intros [= <-]. simpl.
    eapply Put_Inv; [|exact Ep]. by eapply Inv_held_perm.
  - destruct (remove_first cn (held s)) as [h|] eqn:Eh; [|done]. simpl.
    destruct (Remove (world s) cn reason) as [w|] eqn:Ep; [|done]. simpl.
    intros [= <-]. simpl. eapply Remove_Inv; [|exact Ep]. by eapply Inv_held_perm.
  - intros [= <-]. simpl. by apply Close_Inv.
  - case_decide; [|done].
    destruct (addIdleConn (world s) d) as [w|] eqn:Ea; [|done]. simpl.
    destruct (exit GoAddIdleConn w) as [w'|] eqn:Ee; [|done]. simpl.
    intros [= <-]. simpl. eapply exit_Inv; [|exact Ee]. by eapply addIdleConn_Inv.
  - case_decide; [|done].
    pose proof (tryDial_Inv _ d _ HI) as HI'.
    destruct (tryDial (world s) d) as [w [|]]; simpl in *.
    + destruct (exit GoTryDial w) as [w'|] eqn:Ee; [|done]. simpl.
      intros [= <-]. simpl. by eapply exit_Inv.
    + by intros [= <-].
  - case_decide; [|done].
    destruct (reaper (world s)) as [[w b]|] eqn:Er; [|done].
    apply (reaper_Inv _ _ _ _ HI) in Er. destruct b; simpl.
    + destruct (exit _ w) as [w'|] eqn:Ee; [|done]. simpl.
      intros [= <-]. simpl. by eapply exit_Inv.
    + by intros [= <-].
  - case_decide; [|done]. intros [= <-]. simpl.
    revert HI. apply Inv_frame; done || by split.
Qed.

Lemma reachable_Inv allowed o s :
  reachable allowed o s → Inv (world s) (held s).
Proof.
  induction 1 as [now w Hw|s l s' _ IH _ Hex].
  - by eapply NewThriftConnPool_Inv.
  - by eapply exec_Inv.
Qed.

(** ** Steps that leave the circuit breaker alone *)

Lemma quiet_refl w : quiet w w.
Proof. split; auto using evolves_refl. Qed.

Lemma quiet_trans w1 w2 w3 : quiet w1 w2 → quiet w2 w3 → quiet w1 w3.
Proof. intros [] []. split; eauto using evolves_trans; congruence. Qed.

Lemma quiet_with_tp (f : ThriftConnPool → ThriftConnPool) (w : World) :
  opt (f (tp w)) = opt (tp w) → _closed (f (tp w)) = _closed (tp w) →
  dialErrorsNum (f (tp w)) = dialErrorsNum (tp w) →
  lastDialError (f (tp w)) = lastDialError (tp w) →
  quiet w (with_tp f w).
Proof. intros. split; done || by apply evolves_with_tp. Qed.

Lemma count_go_go g g' w :
  count_go g (go g' w) = (count_go g w + (if decide (g' = g) then 1 else 0))%nat.
Proof.
  unfold count_go, go. simpl. rewrite count_occ_app. simpl.
  destruct (Goroutine_eq_dec g' g), (decide (g' = g)); done.
Qed.

Lemma cn_Close_quiet w cn : quiet w (fst (cn_Close w cn)).
Proof.
  split; [apply cn_Close_evolves|rewrite ?cn_Close_tp; try done..].
  - unfold count_go. by rewrite cn_Close_goroutines.
  - unfold cn_Close. by case_match.
Qed.

Lemma checkMinIdleConns_quiet w : quiet w (checkMinIdleConns w).
Proof.
  split; [apply checkMinIdleConns_evolves|..];
    unfold checkMinIdleConns; repeat case_decide; try done.
  by rewrite count_go_go.
Qed.

Lemma popIdle_quiet w : quiet w (fst (popIdle w)).
Proof.
  unfold popIdle. case_match; simpl; [|apply quiet_refl].
  eapply quiet_trans; [|apply checkMinIdleConns_quiet]. by apply quiet_with_tp.
Qed.

Lemma removeConn_quiet w cn : quiet w (removeConn w cn).
Proof.
  unfold removeConn. case_match; [|apply quiet_refl].
  case_match.
  - eapply quiet_trans; [|apply checkMinIdleConns_quiet].
    eapply quiet_trans; by apply quiet_with_tp.
  - by apply quiet_with_tp.
Qed.

Lemma CloseConn_quiet w cn : quiet w (fst (CloseConn w cn)).
Proof.
  unfold CloseConn. eapply quiet_trans; [apply removeConn_quiet|apply cn_Close_quiet].
Qed.

Lemma Get_loop_quiet fuel w w' r : Get_loop fuel w = Some (w', r) → quiet w w'.
Proof.
  revert w. induction fuel as [|fuel IH]; intros w; simpl; [done|].
  pose proof (popIdle_quiet w) as Hq.
  destruct (popIdle w) as [w1 [cn|]]; simpl in Hq.
  - destruct (isStaleConn w1 cn).
    + intros Hg%IH. eapply quiet_trans; [exact Hq|].
      eapply quiet_trans; [apply CloseConn_quiet|exact Hg].
    + intros [= <- <-]. eapply quiet_trans; [exact Hq|]. by apply quiet_with_tp.
  - by intros [= <- <-].
Qed.

Lemma reapStaleConn_quiet w : quiet w (fst (reapStaleConn w)).
Proof.
  unfold reapStaleConn. repeat case_match; simpl; try apply quiet_refl.
  by apply quiet_with_tp.
Qed.

Lemma freeTurn_quiet w w' : freeTurn w = Some w' → quiet w w'.
Proof.
  unfold freeTurn. case_match; [done|]. intros [= <-]. by apply quiet_with_tp.
Qed.

Lemma getTurn_quiet w w' : getTurn w = Some w' → quiet w w'.
Proof.
  unfold getTurn. case_decide; [|done]. intros [= <-]. by apply quiet_with_tp.
Qed.

Lemma waitTurn_quiet w : quiet w (fst (waitTurn w)).
Proof. unfold waitTurn. case_decide; simpl; by apply quiet_with_tp. Qed.

Lemma ReapStaleConns_loop_quiet fuel w n w' n' :
  ReapStaleConns_loop fuel w n = Some (w', n') → quiet w w'.
Proof.
  revert w n. induction fuel as [|fuel IH]; intros w n; simpl; [done|].
  destruct (getTurn w) as [w1|] eqn:Eg; [|done]. simpl.
  apply getTurn_quiet in Eg.
  pose proof (reapStaleConn_quiet w1) as Hq.
  destruct (reapStaleConn w1) as [w2 [c|]]; simpl in Hq.
  - destruct (freeTurn _) as [w4|] eqn:Ef; [|done]. simpl.
    apply freeTurn_quiet in Ef. intros Hl%IH.
    eauto 10 using quiet_trans, removeConn_quiet, cn_Close_quiet.
  - destruct (freeTurn _) as [w4|] eqn:Ef; [|done]. simpl.
    apply freeTurn_quiet in Ef. intros [= <- <-]. eauto using quiet_trans.
Qed.

Lemma reaper_quiet w w' b : reaper w = Some (w', b) → quiet w w'.
Proof.
  unfold reaper. destruct (closed w); [intros [= <- <-]; apply quiet_refl|].
  unfold ReapStaleConns.
  destruct (ReapStaleConns_loop _ w 0) as [[w1 n]|] eqn:Er; [|done]. simpl.
  intros [= <- <-]. apply ReapStaleConns_loop_quiet in Er.
  eapply quiet_trans; [exact Er|]. by apply quiet_with_tp.
Qed.

Lemma Remove_quiet w cn reason w' : Remove w cn reason = Some w' → quiet w w'.
Proof.
  unfold Remove. destruct (freeTurn _) as [w2|] eqn:Ef; [|done]. simpl.
  intros [= <-]. apply freeTurn_quiet in Ef.
  eauto using quiet_trans, removeConn_quiet, cn_Close_quiet.
Qed.

Lemma Put_quiet w cn w' : Put w cn = Some w' → quiet w w'.
Proof.
  unfold Put. case_match; [apply Remove_quiet|].
  intros Hf%freeTurn_quiet. eapply quiet_trans; [|exact Hf].
  eapply quiet_trans; [|by apply quiet_with_tp].
  split; try done. apply cn_UpdateUsedTime_evolves.
Qed.

(** ** What every step preserves *)

Lemma NewConn_evolves w pooled d w' r :
  NewConn w pooled d = Some (w', r) → evolves w w'.
Proof.
  unfold NewConn. destruct (newConn w pooled d) as [w1 [cn1 err1]] eqn:En.
  apply newConn_spec in En as (Hev & _ & _ & _ & _ & _ & Hr).
  destruct cn1 as [c|], err1 as [e|]; try done; try by intros [= <- <-].
  destruct Hr as (-> & _). intros [= <- <-].
  assert (evolves w (with_tp (λ p, set_conns (conns p ++ [nextp w]) p) w1)) as Hev2
    by (eapply evolves_trans; [exact Hev|by apply evolves_with_tp]).
  destruct pooled; [case_decide|]; try done.
  - eapply evolves_trans; [exact Hev2|by apply evolves_with_tp].
  - by apply evolves_unpool_top.
Qed.

Lemma Get_evolves w d w' r : Get w d = Some (w', r) → evolves w w'.
Proof.
  unfold Get. destruct (closed w); [intros [= <- <-]; apply evolves_refl|].
  pose proof (q_evolves _ _ (waitTurn_quiet w)) as H1.
  destruct (waitTurn w) as [w1 [e|]]; [by intros [= <- <-]|]. simpl in H1.
  destruct (Get_loop _ w1) as [[w2 c]|] eqn:Eg; [|done]. simpl.
  apply Get_loop_quiet, q_evolves in Eg.
  destruct c as [c|]; [intros [= <- <-]; eauto using evolves_trans|].
  destruct (NewConn _ true d) as [[w4 [newcn err']]|] eqn:En; [|done]. simpl.
  apply NewConn_evolves in En.
  assert (evolves w w4) as H4.
  { eapply evolves_trans; [exact H1|]. eapply evolves_trans; [exact Eg|].
    eapply evolves_trans; [|exact En]. by apply evolves_with_tp. }
  destruct err' as [e|]; [|by intros [= <- <-]].
  destruct (freeTurn w4) as [w5|] eqn:Ef; [|done]. simpl. intros [= <- <-].
  apply freeTurn_quiet, q_evolves in Ef. eauto using evolves_trans.
Qed.

Lemma addIdleConn_evolves w d w' : addIdleConn w d = Some w' → evolves w w'.
Proof.
  unfold addIdleConn. destruct (newConn w true d) as [w1 [cn1 err1]] eqn:En.
  apply newConn_spec in En as (Hev & _).
  destruct cn1 as [c|], err1 as [e|]; try done; try by intros [= <-].
  intros [= <-]. eapply evolves_trans; [exact Hev|by apply evolves_with_tp].
Qed.

Lemma exit_evolves g w w' : exit g w = Some w' → evolves w w'.
Proof.
  unfold exit. destruct (remove_first g _); [|done]. simpl. intros [= <-]. by split.
Qed.

Lemma exec_evolves s l s' :
  l ≠ LClose → exec s l = Some s' → evolves (world s) (world s').
Proof.
  intros Hl. destruct l; simpl; try done.
  - destruct (Get (world s) d) as [[w [cn err]]|] eqn:Eg; [|done]. simpl.
    apply Get_evolves in Eg. destruct cn, err; by intros [= <-].
  - destruct (remove_first cn (held s)) as [h|]; [|done]. simpl.
    destruct (Put (world s) cn) as [w|] eqn:Ep; [|done]. simpl. intros [= <-].
    by apply Put_quiet, q_evolves in Ep.
  - destruct (remove_first cn (held s)) as [h|]; [|done]. simpl.
    destruct (Remove (world s) cn reason) as [w|] eqn:Ep; [|done]. simpl.
    intros [= <-]. by apply Remove_quiet, q_evolves in Ep.
  - case_decide; [|done].
    destruct (addIdleConn (world s) d) as [w|] eqn:Ea; [|done]. simpl.
    destruct (exit GoAddIdleConn w) as [w'|] eqn:Ee; [|done]. simpl.
    intros [= <-]. simpl.
    eauto using evolves_trans, addIdleConn_evolves, exit_evolves.
  - case_decide; [|done].
    pose proof (tryDial_evolves (world s) d) as Hev.
    destruct (tryDial (world s) d) as [w [|]]; simpl in *.
    + destruct (exit GoTryDial w) as [w'|] eqn:Ee; [|done]. simpl.
      intros [= <-]. simpl. eauto using evolves_trans, exit_evolves.
    + by intros [= <-].
  - case_decide; [|done].
    destruct (reaper (world s)) as [[w b]|] eqn:Er; [|done].
    apply reaper_quiet, q_evolves in Er. destruct b; simpl.
    + destruct (exit _ w) as [w'|] eqn:Ee; [|done]. simpl.
      intros [= <-]. simpl. eauto using evolves_trans, exit_evolves.
    + by intros [= <-].
  - case_decide; [|done]. intros [= <-]. by split.
Qed.

Lemma Close_opt w : opt (tp (fst (Close w))) = opt (tp w).
Proof.
  unfold Close. case_decide; [|done].
  set (w0 := with_tp (set__closed 1) w).
  pose proof (Close_range_tp w0 (conns (tp w0)) None) as Htp.
  destruct (Close_range w0 _ None) as [w1 fe]. simpl in *. by rewrite Htp.
Qed.

Lemma checkMinIdleConns_fields w :
  let w' := checkMinIdleConns w in
  heap w' = heap w ∧ conns (tp w') = conns (tp w)
  ∧ idleConns (tp w') = idleConns (tp w) ∧ queue (tp w') = queue (tp w)
  ∧ stats (tp w') = stats (tp w) ∧ nextp w' = nextp w.
Proof. unfold checkMinIdleConns. by repeat case_decide. Qed.

Lemma NewThriftConnPool_fresh o now w :
  NewThriftConnPool o now = Some w →
  opt (tp w) = o ∧ _closed (tp w) = 0 ∧ heap w = ∅ ∧ dials w = 0%nat
  ∧ conns (tp w) = [] ∧ idleConns (tp w) = [] ∧ queue (tp w) = 0%nat
  ∧ dialErrorsNum (tp w) = 0 ∧ lastDialError (tp w) = None
  ∧ count_go GoTryDial w = 0%nat.
Proof.
  unfold NewThriftConnPool. case_decide as Hp; [done|]. intros [= <-].
  match goal with |- context [Nat.iter _ _ ?w0] => set (w00 := w0) end.
  assert (∀ n, let w1 := Nat.iter n checkMinIdleConns w00 in
            opt (tp w1) = o ∧ _closed (tp w1) = 0 ∧ heap w1 = ∅ ∧ dials w1 = 0%nat
            ∧ conns (tp w1) = [] ∧ idleConns (tp w1) = [] ∧ queue (tp w1) = 0%nat
            ∧ dialErrorsNum (tp w1) = 0 ∧ lastDialError (tp w1) = None
            ∧ count_go GoTryDial w1 = 0%nat) as HI.
  { induction n as [|n IH]; [done|]. cbn [Nat.iter].
    destruct IH as (? & ? & ? & ? & ? & ? & ? & ? & ? & ?).
    pose proof (checkMinIdleConns_quiet (Nat.iter n checkMinIdleConns w00)) as [[] ? ? ? ?].
    pose proof (checkMinIdleConns_fields (Nat.iter n checkMinIdleConns w00))
      as (? & ? & ? & ? & _).
    simpl. split_and!; congruence. }
  specialize (HI (Z.to_nat (MinIdleConns o))).
  destruct HI as (? & ? & ? & ? & ? & ? & ? & ? & ? & ?).
  case_decide; [|done]. rewrite count_go_go. simpl.
  split_and!; try done. lia.
Qed.

Lemma reachable_opt allowed o s : reachable allowed o s → opt (tp (world s)) = o.
Proof.
  induction 1 as [now w Hw|s l s' _ IH _ Hex].
  - by apply NewThriftConnPool_fresh in Hw as [? _].
  - assert (l = LClose ∨ l ≠ LClose) as [->|Hl] by (destruct l; auto).
    + simpl in Hex. injection Hex as <-. simpl. by rewrite Close_opt.
    + apply exec_evolves in Hex; [|done]. by rewrite (ev_opt _ _ Hex).
Qed.

Lemma reachable_not_Close_open o s :
  reachable not_Close o s → closed (world s) = false.
Proof.
  intros Hr. assert (_closed (tp (world s)) = 0) as Hc.
  { induction Hr as [now w Hw|s l s' _ IH Hl Hex].
    - by apply NewThriftConnPool_fresh in Hw as (_ & ? & _).
    - apply exec_evolves in Hex; [|done]. by rewrite (ev_closed _ _ Hex). }
  unfold closed. rewrite Hc. done.
Qed.

(** ** Bounds on the counters *)

(** C1.  Along every sequence of [Get], [Put], [Remove], reaper ticks,
    replenishment and recovery dials that starts from a freshly built pool,
    [idleConnsLen] never exceeds [poolSize] and [poolSize] never exceeds
    the configured [PoolSize]. *)
Theorem idleConnsLen_le_poolSize_le_PoolSize (o : Options) (s : System) :
  reachable not_Close o s →
  idleConnsLen (tp (world s)) <= poolSize (tp (world s))
  ∧ poolSize (tp (world s)) <= PoolSize o.
Proof.
  intros Hr.
  pose proof (reachable_Inv _ _ _ Hr) as [].
  pose proof (reachable_not_Close_open _ _ Hr) as Hopen.
  pose proof (reachable_opt _ _ _ Hr) as Ho.
  pose proof (pooled_count_nonneg (world s) (held s)).
  specialize (inv_cap0 Hopen). specialize (inv_slack0 Hopen).
  rewrite Ho in inv_cap0. lia.
Qed.

(** ** The admission gate

    Under the caller contract the number of elements in [queue] is the
    number of connections checked out, so the receive in [freeTurn] never
    blocks in [Put] and [Remove]. *)

Lemma removeConn_queue w cn : queue (tp (removeConn w cn)) = queue (tp w).
Proof.
  unfold removeConn. repeat case_match; try done.
  by destruct (checkMinIdleConns_fields
                 (with_tp (λ p, set_poolSize (poolSize p - 1) p)
                    (with_tp (set_conns l) w))) as (_ & _ & _ & -> & _).
Qed.

Lemma popIdle_queue w : queue (tp (fst (popIdle w))) = queue (tp w).
Proof.
  unfold popIdle. case_match; [|done]. simpl.
  match goal with |- context [checkMinIdleConns ?x] =>
    by destruct (checkMinIdleConns_fields x) as (_ & _ & _ & -> & _) end.
Qed.

Lemma CloseConn_queue w cn : queue (tp (fst (CloseConn w cn))) = queue (tp w).
Proof. unfold CloseConn. by rewrite cn_Close_tp, removeConn_queue. Qed.

Lemma Get_loop_queue fuel w w' r :
  Get_loop fuel w = Some (w', r) → queue (tp w') = queue (tp w).
Proof.
  revert w. induction fuel as [|fuel IH]; intros w; simpl; [done|].
  pose proof (popIdle_queue w) as Hq.
  destruct (popIdle w) as [w1 [cn|]]; simpl in Hq.
  - destruct (isStaleConn w1 cn).
    + intros Hg%IH. by rewrite Hg, CloseConn_queue.
    + by intros [= <- <-].
  - by intros [= <- <-].
Qed.

Lemma NewConn_queue w pooled d w' r :
  NewConn w pooled d = Some (w', r) → queue (tp w') = queue (tp w).
Proof.
  unfold NewConn. destruct (newConn w pooled d) as [w1 [cn1 err1]] eqn:En.
  apply newConn_spec in En as (_ & _ & _ & _ & _ & Hq & _).
  destruct cn1 as [c|], err1 as [e|]; try done; try by intros [= <- <-].
  intros [= <- <-]. destruct pooled; [case_decide|]; done.
Qed.

Lemma Get_queue w d w' cn err :
  Get w d = Some (w', (cn, err)) →
  queue (tp w') = match cn, err with
                  | Some _, None => S (queue (tp w))
                  | _, _ => queue (tp w)
                  end.
Proof.
  unfold Get. destruct (closed w); [by intros [= <- <- <-]|].
  unfold waitTurn. case_decide; [|by intros [= <- <- <-]].
  match goal with |- context [Get_loop ?f ?x] =>
    destruct (Get_loop f x) as [[w2 c]|] eqn:Eg; [|done] end. simpl.
  apply Get_loop_queue in Eg. simpl in Eg.
  destruct c as [c|]; [by intros [= <- <- <-]|].
  destruct (NewConn _ true d) as [[w4 [newcn err']]|] eqn:En; [|done]. simpl.
  assert (match newcn, err' with
          | Some _, None | None, Some _ => True
          | _, _ => False
          end) as Hshape.
  { revert En. unfold NewConn. destruct (newConn _ true d) as [w1 [cn1 err1]].
    destruct cn1, err1; try done; by intros [= <- <- <-]. }
  apply NewConn_queue in En. simpl in En.
  destruct err' as [e|].
  - unfold freeTurn. rewrite En, Eg. simpl. intros [= <- <- <-]. done.
  - destruct newcn; [|done]. intros [= <- <- <-]. by rewrite En, Eg.
Qed.

Lemma Remove_queue w cn reason w' :
  Remove w cn reason = Some w' → S (queue (tp w')) = queue (tp w).
Proof.
  unfold Remove, freeTurn. rewrite removeConn_queue.
  destruct (queue (tp w)); [done|]. simpl. intros [= <-].
  by rewrite cn_Close_tp.
Qed.

Lemma Put_queue w cn w' : Put w cn = Some w' → S (queue (tp w')) = queue (tp w).
Proof.
  unfold Put. case_match; [apply Remove_queue|].
  unfold freeTurn. simpl. destruct (queue (tp w)); [done|]. by intros [= <-].
Qed.

Lemma ReapStaleConns_loop_queue fuel w n w' n' :
  ReapStaleConns_loop fuel w n = Some (w', n') → queue (tp w') = queue (tp w).
Proof.
  revert w n. induction fuel as [|fuel IH]; intros w n; simpl; [done|].
  unfold getTurn. case_decide; [|done]. simpl.
  match goal with |- context [reapStaleConn ?x] =>
    assert (queue (tp (fst (reapStaleConn x))) = S (queue (tp w))) as Hq
      by (unfold reapStaleConn; by repeat case_match);
    destruct (reapStaleConn x) as [w2 [c|]] end; simpl in Hq.
  - unfold freeTurn. rewrite removeConn_queue, Hq. simpl.
    intros Hl%IH. by rewrite Hl, cn_Close_tp.
  - unfold freeTurn. rewrite Hq. simpl. by intros [= <- <-].
Qed.

Lemma reaper_queue w w' b : reaper w = Some (w', b) → queue (tp w') = queue (tp w).
Proof.
  unfold reaper. destruct (closed w); [by intros [= <- <-]|].
  unfold ReapStaleConns.
  destruct (ReapStaleConns_loop _ w 0) as [[w1 n]|] eqn:Er; [|done]. simpl.
  intros [= <- <-]. by apply ReapStaleConns_loop_queue in Er.
Qed.

Lemma addIdleConn_queue w d w' :
  addIdleConn w d = Some w' → queue (tp w') = queue (tp w).
Proof.
  unfold addIdleConn. destruct (newConn w true d) as [w1 [cn1 err1]] eqn:En.
  apply newConn_spec in En as (_ & _ & _ & _ & _ & Hq & _).
  destruct cn1 as [c|], err1 as [e|]; try done; by intros [= <-].
Qed.

Lemma tryDial_queue w d : queue (tp (fst (tryDial w d))) = queue (tp w).
Proof.
  unfold tryDial. destruct (closed w); [done|].
  destruct d; simpl; [|done]. by rewrite cn_Close_tp.
Qed.

Lemma Close_queue w : queue (tp (fst (Close w))) = queue (tp w).
Proof.
  unfold Close. case_decide; [|done].
  set (w0 := with_tp (set__closed 1) w).
  pose proof (Close_range_tp w0 (conns (tp w0)) None) as Htp.
  destruct (Close_range w0 _ None) as [w1 fe]. simpl in *. by rewrite Htp.
Qed.

Lemma exit_tp g w w' : exit g w = Some w' → tp w' = tp w.
Proof. unfold exit. destruct (remove_first g _); [|done]. by intros [= <-]. Qed.

Lemma exec_queue s l s' :
  queue (tp (world s)) = length (held s) → exec s l = Some s' →
  queue (tp (world s')) = length (held s').
Proof.
  intros HI. destruct l; simpl.
  - destruct (Get (world s) d) as [[w [cn err]]|] eqn:Eg; [|done]. simpl.
    apply Get_queue in Eg. destruct cn, err; intros [= <-]; simpl; lia.
  - destruct (remove_first cn (held s)) as [h|] eqn:Eh; [|done]. simpl.
    destruct (Put (world s) cn) as [w|] eqn:Ep; [|done]. simpl. intros [= <-]. simpl.
    apply Put_queue in Ep. apply remove_first_length in Eh. lia.
  - destruct (remove_first cn (held s)) as [h|] eqn:Eh; [|done]. simpl.
    destruct (Remove (world s) cn reason) as [w|] eqn:Ep; [|done]. simpl.
    intros [= <-]. simpl.
    apply Remove_queue in Ep. apply remove_first_length in Eh. lia.
  - intros [= <-]. simpl. by rewrite Close_queue.
  - case_decide; [|done].
    destruct (addIdleConn (world s) d) as [w|] eqn:Ea; [|done]. simpl.
    destruct (exit GoAddIdleConn w) as [w'|] eqn:Ee; [|done]. simpl.
    intros [= <-]. simpl. apply addIdleConn_queue in Ea. apply exit_tp in Ee.
    by rewrite Ee, Ea.
  - case_decide; [|done].
    pose proof (tryDial_queue (world s) d) as Hq.
    destruct (tryDial (world s) d) as [w [|]]; simpl in *.
    + destruct (exit GoTryDial w) as [w'|] eqn:Ee; [|done]. simpl.
      intros [= <-]. simpl. apply exit_tp in Ee. by rewrite Ee, Hq.
    + intros [= <-]. simpl. by rewrite Hq.
  - case_decide; [|done].
    destruct (reaper (world s)) as [[w b]|] eqn:Er; [|done].
    apply reaper_queue in Er. destruct b; simpl.
    + destruct (exit _ w) as [w'|] eqn:Ee; [|done]. simpl.
      intros [= <-]. simpl. apply exit_tp in Ee. by rewrite Ee, Er.
    + intros [= <-]. simpl. by rewrite Er.
  - case_decide; [|done]. by intros [= <-].
Qed.

Lemma reachable_queue allowed o s :
  reachable allowed o s → queue (tp (world s)) = length (held s).
Proof.
  induction 1 as [now w Hw|s l s' _ IH _ Hex].
  - apply NewThriftConnPool_fresh in Hw as (_ & _ & _ & _ & _ & _ & Hq & _).
    simpl. by rewrite Hq.
  - by eapply exec_queue.
Qed.

Lemma run_reachable allowed o now ls s :
  Forall allowed ls → run_from o now ls = Some s → reachable allowed o s.
Proof.
  unfold run_from. destruct (NewThriftConnPool o now) as [w|] eqn:Ew; [|done].
  simpl. pose proof (reachable_init allowed o now w Ew) as Hr.
  revert Hr. generalize (mkSystem w []). intros s0 Hr Hls. revert s0 Hr.
  induction Hls as [|l ls Hl _ IH]; intros s0 Hr; simpl.
  - by intros [= <-].
  - destruct (exec s0 l) as [s1|] eqn:Ex; [|done]. simpl.
    apply IH. by eapply reachable_step.
Qed.

Lemma idleConnsLen_le_poolSize_le_PoolSize_witness :
  idleConnsLen (tp (world example_sys)) <= poolSize (tp (world example_sys))
  ∧ poolSize (tp (world example_sys)) <= PoolSize example_opts.
Proof.
  apply (idleConnsLen_le_poolSize_le_PoolSize example_opts example_sys).
  apply (run_reachable _ _ 0 example_labels).
  - repeat constructor; discriminate.
  - vm_compute. reflexivity.
Defined.

(** ** Overflow connections *)

(** C8.  [Put] of a connection whose [pooled] flag is false takes it out
    of [conns], frees one slot of the gate and closes it, and leaves
    [idleConns] as it was; and in every reachable state all connections in
    [idleConns] have the flag set. *)
Theorem unpooled_conn_never_idle (o : Options) (s : System) :
  reachable any_label o s →
  (∀ cn, cn ∈ held s → is_pooled (world s) cn = false →
     ∃ w', Put (world s) cn = Some w'
           ∧ (cn ∉ conns (tp w'))
           ∧ S (queue (tp w')) = queue (tp (world s))
           ∧ cn_IsClose w' cn = true
           ∧ idleConns (tp w') = idleConns (tp (world s)))
  ∧ (∀ cn, cn ∈ idleConns (tp (world s)) → is_pooled (world s) cn = true).
Proof.
  intros Hr. pose proof (reachable_Inv _ _ _ Hr) as [].
  pose proof (reachable_queue _ _ _ Hr) as Hq.
  split; [|by apply Forall_forall].
  intros cn Hcn Hp.
  assert (is_Some (heap (world s) !! cn)) as Hsome.
  { apply inv_heap0. rewrite Forall_forall in inv_held0. by apply inv_held0. }
  destruct (held s) as [|c h] eqn:Eh; [by apply elem_of_nil in Hcn|]. simpl in Hq.
  unfold Put. fold (is_pooled (world s) cn). rewrite Hp. simpl.
  unfold Remove, removeConn. fold (is_pooled (world s) cn).
  destruct (remove_first cn (conns (tp (world s)))) as [l|] eqn:El.
  - simpl. fold (is_pooled (world s) cn). rewrite Hp.
    unfold freeTurn. simpl. rewrite Hq. simpl. eexists. split; [done|].
    rewrite cn_Close_tp. simpl. split_and!; try done.
    + by apply remove_first_NoDup in El as [_ ?].
    + by apply cn_Close_closed.
  - unfold freeTurn. rewrite Hq. simpl. eexists. split; [done|].
    rewrite cn_Close_tp. simpl. split_and!; try done.
    + by apply remove_first_None.
    + by apply cn_Close_closed.
Qed.

Lemma unpooled_conn_never_idle_witness :
  ∃ w', Put (world example_sys) 1%nat = Some w'
        ∧ (1%nat ∉ conns (tp w'))
        ∧ S (queue (tp w')) = queue (tp (world example_sys))
        ∧ cn_IsClose w' 1%nat = true
        ∧ idleConns (tp w') = idleConns (tp (world example_sys)).
Proof.
  apply (unpooled_conn_never_idle example_opts example_sys).
  - apply (run_reachable _ _ 0 example_labels).
    + repeat constructor.
    + vm_compute. reflexivity.
  - vm_compute. left.
  - vm_compute. reflexivity.
Defined.

(** ** Close *)

Lemma cn_Close_result w cn : snd (cn_Close w cn) = close_result w cn.
Proof. unfold cn_Close, close_result. by case_match. Qed.

Lemma cn_Close_other w cn c :
  c ≠ cn → heap (fst (cn_Close w cn)) !!! c = heap w !!! c.
Proof.
  intros Hc. unfold cn_Close. case_match; simpl; [done|].
  by rewrite lookup_total_alter_ne.
Qed.

Lemma cn_Close_is_Some w cn c :
  is_Some (heap (fst (cn_Close w cn)) !! c) ↔ is_Some (heap w !! c).
Proof. unfold cn_Close. case_match; simpl; [done|]. apply is_Some_alter. Qed.

Lemma Close_range_spec w l fe :
  NoDup l → (∀ cn, cn ∈ l → is_Some (heap w !! cn)) →
  snd (Close_range w l fe)
    = match fe with
      | Some e => Some e
      | None => first_error (map (close_result w) l)
      end
  ∧ (∀ cn, cn ∈ l → cn_IsClose (fst (Close_range w l fe)) cn = true)
  ∧ (∀ cn, cn ∉ l → heap (fst (Close_range w l fe)) !!! cn = heap w !!! cn).
Proof.
  revert w fe. induction l as [|c l IH]; intros w fe Hnd Hal; simpl.
  - split_and!; [by destruct fe| |done]. intros cn Hcn. by apply elem_of_nil in Hcn.
  - apply NoDup_cons in Hnd as [Hc Hnd].
    pose proof (cn_Close_result w c) as Hres.
    pose proof (cn_Close_closed w c (Hal c (list_elem_of_here _ _))) as Hclosed.
    pose proof (cn_Close_other w c) as Hother.
    pose proof (cn_Close_is_Some w c) as Hsome.
    destruct (cn_Close w c) as [w1 err]. simpl in *.
    match goal with |- context [Close_range w1 l ?fe1] =>
      destruct (IH w1 fe1 Hnd) as (IH1 & IH2 & IH3) end.
    { intros cn Hcn. apply Hsome, Hal. by right. }
    split_and!.
    + rewrite IH1.
      assert (map (close_result w1) l = map (close_result w) l) as ->.
      { apply map_ext_in. intros cn Hcn%list_elem_of_In. unfold close_result.
        rewrite Hother; [done|]. intros ->. done. }
      rewrite <- Hres. by destruct err, fe.
    + intros cn [->|Hcn]%elem_of_cons; [|by apply IH2].
      unfold cn_IsClose in *. by rewrite IH3.
    + intros cn [Hne Hcn]%not_elem_of_cons. rewrite IH3 by done. by apply Hother.
Qed.

Lemma reachable_closed_flag allowed o s :
  reachable allowed o s → _closed (tp (world s)) = 0 ∨ _closed (tp (world s)) = 1.
Proof.
  induction 1 as [now w Hw|s l s' _ IH _ Hex].
  - left. by apply NewThriftConnPool_fresh in Hw as (_ & ? & _).
  - assert (l = LClose ∨ l ≠ LClose) as [->|Hl] by (destruct l; auto).
    + simpl in Hex. injection Hex as <-. simpl. unfold Close.
      case_decide as Hc; [|tauto]. right.
      set (w0 := with_tp (set__closed 1) (world s)).
      pose proof (Close_range_tp w0 (conns (tp w0)) None) as Htp.
      destruct (Close_range w0 _ None) as [w1 fe]. simpl in *. by rewrite Htp.
    + apply exec_evolves in Hex; [|done]. by rewrite (ev_closed _ _ Hex).
Qed.

(** C7.  The first [Close] closes every tracked connection, returns the
    first error met while doing so (nil if there is none) and leaves no
    tracked connection, so that [Stats().TotalConns] is zero; a [Close]
    on a closed pool changes nothing and returns [ErrClosed]. *)
Theorem Close_idempotent (o : Options) (s : System) :
  reachable any_label o s →
  (closed (world s) = false →
     ∃ w', Close (world s)
             = (w', first_error (map (close_result (world s)) (conns (tp (world s)))))
           ∧ (∀ cn, cn ∈ conns (tp (world s)) → cn_IsClose w' cn = true)
           ∧ closed w' = true
           ∧ conns (tp w') = [] ∧ idleConns (tp w') = []
           ∧ TotalConns (PoolStats w') = 0
           ∧ Close w' = (w', Some ErrClosed))
  ∧ (closed (world s) = true → Close (world s) = (world s, Some ErrClosed)).
Proof.
  intros Hr. pose proof (reachable_Inv _ _ _ Hr) as [].
  pose proof (reachable_closed_flag _ _ _ Hr) as Hflag.
  unfold closed. split; intros Hc; apply bool_decide_eq_false in Hc
    || apply bool_decide_eq_true in Hc.
  - assert (_closed (tp (world s)) = 0) as H0 by tauto.
    unfold Close at 1. rewrite decide_True by done.
    set (w0 := with_tp (set__closed 1) (world s)).
    pose proof (Close_range_tp w0 (conns (tp w0)) None) as Htp.
    destruct (Close_range_spec w0 (conns (tp w0)) None) as (H1 & H2 & _); [done| |].
    { intros cn Hcn. apply inv_heap0. rewrite Forall_forall in inv_conns0.
      by apply inv_conns0. }
    destruct (Close_range w0 _ None) as [w1 fe]. simpl in *. subst fe.
    eexists. split; [done|]. unfold Close, PoolStats, Len. simpl. rewrite Htp. simpl.
    split_and!; done.
  - unfold Close. rewrite decide_False; [done|lia].
Qed.

Lemma Close_idempotent_witness :
  ∃ w', Close (world close_sys) = (w', Some (ErrOther "broken pipe"))
        ∧ closed w' = true ∧ TotalConns (PoolStats w') = 0
        ∧ Close w' = (w', Some ErrClosed).
Proof.
  destruct (Close_idempotent example_opts close_sys) as [H _].
  - apply (run_reachable _ _ 0 close_labels).
    + repeat constructor.
    + vm_compute. reflexivity.
  - destruct H as (w' & H1 & _ & H3 & _ & _ & H6 & H7); [vm_compute; reflexivity|].
    exists w'. split_and!; [by rewrite H1|done..].
Defined.

(** C2.  A caller checks a connection out, the pool is closed, the caller
    gives the connection back: [Put] appends the closed connection to
    [idleConns] of the closed pool and counts it, although [Get] keeps
    answering [ErrClosed].  [Put] has no test of the closed flag. *)
Theorem Put_after_Close_requeues :
  ∃ s, run_from one_opts 0 put_after_close_labels = Some s
       ∧ closed (world s) = true
       ∧ idleConns (tp (world s)) = [0%nat]
       ∧ idleConnsLen (tp (world s)) = 1
       ∧ poolSize (tp (world s)) = 0
       ∧ cn_IsClose (world s) 0%nat = true
       ∧ ∀ d, Get (world s) d = Some (world s, (None, Some ErrClosed)).
Proof.
  eexists. split; [vm_compute; reflexivity|]. split_and!; try reflexivity.
Qed.

(** ** Replenishment *)

(** C3.  When the dial of a speculative [addIdleConn] fails, the
    increments that [checkMinIdleConns] made to [poolSize] and
    [idleConnsLen] stay: [addIdleConn] returns without touching the
    counters. *)
Theorem failed_addIdleConn_keeps_reservation (w : World) (e : error) :
  closed w = false →
  dialErrorsNum (tp w) < u32 (PoolSize (opt (tp w))) →
  MinIdleConns (opt (tp w)) ≠ 0 →
  poolSize (tp w) < PoolSize (opt (tp w)) →
  idleConnsLen (tp w) < MinIdleConns (opt (tp w)) →
  ∃ w', addIdleConn (checkMinIdleConns w) (DialErr e) = Some w'
        ∧ poolSize (tp w') = poolSize (tp w) + 1
        ∧ idleConnsLen (tp w') = idleConnsLen (tp w) + 1
        ∧ conns (tp w') = conns (tp w)
        ∧ idleConns (tp w') = idleConns (tp w)
        ∧ dials w' = S (dials w)
        ∧ count_go GoAddIdleConn w' = S (count_go GoAddIdleConn w).
Proof.
  intros Hc Hd Hm Hp Hi. unfold checkMinIdleConns.
  rewrite decide_False by done. rewrite decide_True by done.
  unfold addIdleConn, newConn. unfold closed in *. simpl. rewrite Hc.
  rewrite decide_False by lia. simpl.
  match goal with |- context [decide (u32 ?a = ?b)] =>
    destruct (decide (u32 a = b)) end;
    (eexists; split; [done|]); split_and!; try done;
    unfold count_go; simpl; rewrite !count_occ_app; simpl; lia.
Qed.

Lemma failed_addIdleConn_keeps_reservation_witness :
  ∃ w', addIdleConn (checkMinIdleConns bare_example) dial_fail = Some w'
        ∧ poolSize (tp w') = 1 ∧ idleConnsLen (tp w') = 1
        ∧ idleConns (tp w') = [].
Proof.
  destruct (failed_addIdleConn_keeps_reservation bare_example
              (ErrOther "connection refused"))
    as (w' & H1 & H2 & H3 & _ & H5 & _); try (vm_compute; congruence).
  exists w'. split_and!; done.
Defined.

(** After the failed dial the only slot of a pool of capacity one stays
    reserved: once the endpoint is back, the connection the next [Get]
    dials is an overflow connection. *)
Example capacity_lost_after_failed_dial :
  ∃ s, run_from one_warm_opts 0
         [LAddIdleConn dial_fail; LTryDial (DialOk sock_ok); LGet (DialOk sock_ok)]
       = Some s
       ∧ held s = [1%nat] ∧ is_pooled (world s) 1%nat = false
       ∧ poolSize (tp (world s)) = 1 ∧ idleConnsLen (tp (world s)) = 1
       ∧ idleConns (tp (world s)) = [] ∧ goroutines (world s) = [].
Proof. eexists. split; [vm_compute; reflexivity|]. split_and!; reflexivity. Qed.

(** ** Construction *)

Lemma init_PoolSize_default (NumCPU : Z) (o : Options) :
  PoolSize o = 0 → 0 < NumCPU < 2 ^ 59 →
  PoolSize (init NumCPU o) = 10 * NumCPU ∧ 0 < PoolSize (init NumCPU o).
Proof.
  intros Hp Hn. unfold init. simpl. rewrite decide_True by done.
  unfold wrap64. rewrite Z.mod_small by lia. lia.
Qed.

(** C4.  [NewThriftConnPool] takes the options as they are; [init], which
    would put the defaults in, is not called.  With [PoolSize] zero the
    gate has no slot, and every [Get] on the open pool runs into the pool
    timeout. *)
Theorem zero_PoolSize_every_Get_times_out (o : Options) (s : System) :
  PoolSize o = 0 →
  reachable any_label o s →
  PoolSize (opt (tp (world s))) = 0
  ∧ ∀ d, Get (world s) d
         = if closed (world s) then Some (world s, (None, Some ErrClosed))
           else Some (with_tp (λ p, set_stats (add_Timeouts 1 (stats p)) p) (world s),
                      (None, Some ErrPoolTimeout)).
Proof.
  intros Hp Hr. pose proof (reachable_opt _ _ _ Hr) as Ho.
  split; [by rewrite Ho|]. intros d. unfold Get. destruct (closed (world s)); [done|].
  unfold waitTurn. rewrite Ho, Hp. by rewrite decide_False by lia.
Qed.

Lemma zero_PoolSize_every_Get_times_out_witness :
  ∃ w w', NewThriftConnPool readme_opts 0 = Some w
          ∧ Get w (DialOk sock_ok) = Some (w', (None, Some ErrPoolTimeout)).
Proof.
  destruct (NewThriftConnPool readme_opts 0) as [w|] eqn:Ew; [|by vm_compute in Ew].
  destruct (zero_PoolSize_every_Get_times_out readme_opts (mkSystem w []))
    as [_ H]; [reflexivity|by apply (reachable_init _ _ 0)|].
  specialize (H (DialOk sock_ok)). simpl in H.
  replace (closed w) with false in H by (vm_compute in Ew; by injection Ew as <-).
  eauto.
Defined.

(** ** Reservations that are never filled *)

Lemma count_occ_remove_first (g g' : Goroutine) (gs gs' : list Goroutine) :
  remove_first g gs = Some gs' →
  count_occ Goroutine_eq_dec gs g'
  = (count_occ Goroutine_eq_dec gs' g' + (if decide (g = g') then 1 else 0))%nat.
Proof.
  intros (l1 & l2 & -> & -> & _)%remove_first_Some.
  rewrite !count_occ_app. simpl.
  destruct (Goroutine_eq_dec g g'), (decide (g = g')); try done; lia.
Qed.

Lemma checkMinIdleConns_lost w : lost (checkMinIdleConns w) = lost w.
Proof.
  unfold checkMinIdleConns. repeat case_decide; try done.
  unfold lost. rewrite count_go_go, decide_True, Nat2Z.inj_add by done.
  unfold count_go. simpl. lia.
Qed.

Lemma lost_stats w f :
  lost (with_tp (λ p, set_stats (f (stats p)) p) w) = lost w.
Proof. done. Qed.

Lemma lost_queue w n : lost (with_tp (set_queue n) w) = lost w.
Proof. done. Qed.

Lemma cn_Close_lost w cn : lost (fst (cn_Close w cn)) = lost w.
Proof. unfold lost, count_go. by rewrite cn_Close_tp, cn_Close_goroutines. Qed.

Lemma popIdle_lost w : lost (fst (popIdle w)) = lost w.
Proof.
  destruct (popIdle w) as [w1 [cn|]] eqn:Ep; simpl.
  - apply popIdle_Some in Ep as (l & Hl & ->). rewrite checkMinIdleConns_lost.
    unfold lost, count_go. simpl. rewrite Hl, length_app, Nat2Z.inj_add. simpl. lia.
  - by apply popIdle_None in Ep as [-> _].
Qed.

Lemma removeConn_lost w cn : lost (removeConn w cn) = lost w.
Proof.
  unfold removeConn. repeat case_match; try done. by rewrite checkMinIdleConns_lost.
Qed.

Lemma CloseConn_lost w cn : lost (fst (CloseConn w cn)) = lost w.
Proof. unfold CloseConn. by rewrite cn_Close_lost, removeConn_lost. Qed.

Lemma Get_loop_lost fuel w w' r : Get_loop fuel w = Some (w', r) → lost w' = lost w.
Proof.
  revert w. induction fuel as [|fuel IH]; intros w; simpl; [done|].
  pose proof (popIdle_lost w) as Hq.
  destruct (popIdle w) as [w1 [cn|]]; simpl in Hq.
  - destruct (isStaleConn w1 cn).
    + intros Hg%IH. by rewrite Hg, CloseConn_lost.
    + by intros [= <- <-].
  - by intros [= <- <-].
Qed.

Lemma newConn_lost w pooled d w' r : newConn w pooled d = (w', r) → lost w' = lost w.
Proof.
  unfold newConn. destruct (closed w); [by intros [= <- <-]|].
  case_decide; [by intros [= <- <-]|].
  destruct d as [sock|e]; simpl; [by intros [= <- <-]|].
  case_decide; intros [= <- <-]; [|done].
  unfold lost. rewrite count_go_go, decide_False, Nat.add_0_r by done. done.
Qed.

Lemma NewConn_lost w pooled d w' r :
  NewConn w pooled d = Some (w', r) → lost w' = lost w.
Proof.
  unfold NewConn. destruct (newConn w pooled d) as [w1 [cn1 err1]] eqn:En.
  apply newConn_lost in En.
  destruct cn1 as [c|], err1 as [e|]; try done; try by intros [= <- <-].
  intros [= <- <-]. destruct pooled; [case_decide|]; done.
Qed.

Lemma freeTurn_lost w w' : freeTurn w = Some w' → lost w' = lost w.
Proof. unfold freeTurn. case_match; [done|]. by intros [= <-]. Qed.

Lemma Get_lost w d w' r : Get w d = Some (w', r) → lost w' = lost w.
Proof.
  unfold Get. destruct (closed w); [by intros [= <- <-]|].
  unfold waitTurn. case_decide; [|by intros [= <- <-]].
  match goal with |- context [Get_loop ?f ?x] =>
    destruct (Get_loop f x) as [[w2 c]|] eqn:Eg; [|done] end. simpl.
  apply Get_loop_lost in Eg. rewrite lost_queue in Eg.
  destruct c as [c|]; [by intros [= <- <-]|].
  destruct (NewConn _ true d) as [[w4 [newcn err']]|] eqn:En; [|done]. simpl.
  apply NewConn_lost in En. rewrite lost_stats in En.
  destruct err' as [e|]; [|intros [= <- <-]; congruence].
  destruct (freeTurn w4) as [w5|] eqn:Ef; [|done]. simpl. intros [= <- <-].
  apply freeTurn_lost in Ef. congruence.
Qed.

Lemma Remove_lost w cn reason w' : Remove w cn reason = Some w' → lost w' = lost w.
Proof.
  unfold Remove. destruct (freeTurn _) as [w2|] eqn:Ef; [|done]. simpl.
  intros [= <-]. apply freeTurn_lost in Ef.
  by rewrite cn_Close_lost, Ef, removeConn_lost.
Qed.

Lemma Put_lost w cn w' : Put w cn = Some w' → lost w' = lost w.
Proof.
  unfold Put. case_match; [apply Remove_lost|].
  intros ->%freeTurn_lost. unfold lost, count_go. simpl.
  rewrite length_app, Nat2Z.inj_add. simpl. lia.
Qed.

Lemma reapStaleConn_lost w : lost (fst (reapStaleConn w)) = lost w.
Proof.
  unfold reapStaleConn. destruct (idleConns (tp w)) eqn:E; [done|].
  case_match; simpl; [done|]. unfold lost, count_go. simpl. rewrite E.
  cbn [length]. lia.
Qed.

Lemma ReapStaleConns_loop_lost fuel w n w' n' :
  ReapStaleConns_loop fuel w n = Some (w', n') → lost w' = lost w.
Proof.
  revert w n. induction fuel as [|fuel IH]; intros w n; simpl; [done|].
  unfold getTurn. case_decide; [|done]. simpl.
  match goal with |- context [reapStaleConn ?x] =>
    pose proof (reapStaleConn_lost x) as Hq;
    destruct (reapStaleConn x) as [w2 [c|]] end; simpl in Hq;
    rewrite lost_queue in Hq.
  - destruct (freeTurn _) as [w4|] eqn:Ef; [|done]. simpl.
    apply freeTurn_lost in Ef. intros Hl%IH.
    by rewrite Hl, cn_Close_lost, Ef, removeConn_lost.
  - destruct (freeTurn _) as [w4|] eqn:Ef; [|done]. simpl.
    apply freeTurn_lost in Ef. intros [= <- <-]. congruence.
Qed.

Lemma reaper_lost w w' b : reaper w = Some (w', b) → lost w' = lost w.
Proof.
  unfold reaper. destruct (closed w); [by intros [= <- <-]|].
  unfold ReapStaleConns.
  destruct (ReapStaleConns_loop _ w 0) as [[w1 n]|] eqn:Er; [|done]. simpl.
  intros [= <- <-]. by apply ReapStaleConns_loop_lost in Er.
Qed.

Lemma tryDial_lost w d : lost (fst (tryDial w d)) = lost w.
Proof.
  unfold tryDial. destruct (closed w); [done|].
  destruct d; simpl; [|done]. by rewrite cn_Close_lost.
Qed.

Lemma exit_lost g w w' :
  exit g w = Some w' →
  lost w' = lost w + (if decide (g = GoAddIdleConn) then 1 else 0).
Proof.
  unfold exit. destruct (remove_first g _) as [gs|] eqn:E; [|done]. simpl.
  intros [= <-]. unfold lost, count_go. simpl.
  rewrite (count_occ_remove_first _ GoAddIdleConn _ _ E), Nat2Z.inj_add.
  case_decide; simpl; lia.
Qed.

(** A spawned [addIdleConn] that has run either appended its connection
    to [idleConns] or left its reservation behind. *)
Lemma addIdleConn_lost w d w' :
  addIdleConn w d = Some w' →
  lost w' = lost w - Z.of_nat (length (idleConns (tp w')) - length (idleConns (tp w)))
  ∧ (length (idleConns (tp w)) ≤ length (idleConns (tp w')) ≤ S (length (idleConns (tp w))))%nat
  ∧ (∀ e, d = DialErr e → idleConns (tp w') = idleConns (tp w)
                           ∧ idleConnsLen (tp w') = idleConnsLen (tp w)).
Proof.
  unfold addIdleConn. destruct (newConn w true d) as [w1 [cn1 err1]] eqn:En.
  pose proof (newConn_lost _ _ _ _ _ En) as Hl.
  pose proof (newConn_spec _ _ _ _ _ _ En) as (_ & _ & Hi & _ & Hn & _ & Hr).
  destruct cn1 as [c|], err1 as [e|]; try done; intros [= <-].
  - destruct Hr as (-> & _). split; [|split].
    + rewrite <- Hl. unfold lost, count_go. simpl.
      rewrite Hi, length_app, Nat2Z.inj_add. cbn [length]. lia.
    + simpl. rewrite Hi, length_app. cbn [length]. lia.
    + intros e ->. unfold newConn in En. simpl in En. by repeat case_match.
  - rewrite Hi, <- Hl. split_and!; [lia|lia|lia|done].
Qed.

Lemma exec_lost s l s' :
  l ≠ LClose → exec s l = Some s' → lost (world s) <= lost (world s').
Proof.
  intros Hl. destruct l; simpl; try done.
  - destruct (Get (world s) d) as [[w [cn err]]|] eqn:Eg; [|done]. simpl.
    apply Get_lost in Eg. destruct cn, err; intros [= <-]; simpl; lia.
  - destruct (remove_first cn (held s)) as [h|]; [|done]. simpl.
    destruct (Put (world s) cn) as [w|] eqn:Ep; [|done]. simpl. intros [= <-].
    apply Put_lost in Ep. simpl. lia.
  - destruct (remove_first cn (held s)) as [h|]; [|done]. simpl.
    destruct (Remove (world s) cn reason) as [w|] eqn:Ep; [|done]. simpl.
    intros [= <-]. apply Remove_lost in Ep. simpl. lia.
  - case_decide; [|done].
    destruct (addIdleConn (world s) d) as [w|] eqn:Ea; [|done]. simpl.
    destruct (exit GoAddIdleConn w) as [w'|] eqn:Ee; [|done]. simpl.
    intros [= <-]. simpl. apply addIdleConn_lost in Ea as (Ha & Hb & _).
    apply exit_lost in Ee. rewrite decide_True in Ee by done. lia.
  - case_decide; [|done].
    pose proof (tryDial_lost (world s) d) as Hq.
    destruct (tryDial (world s) d) as [w [|]]; simpl in *.
    + destruct (exit GoTryDial w) as [w'|] eqn:Ee; [|done]. simpl.
      intros [= <-]. simpl. apply exit_lost in Ee.
      rewrite decide_False in Ee by done. lia.
    + intros [= <-]. simpl. lia.
  - case_decide; [|done].
    destruct (reaper (world s)) as [[w b]|] eqn:Er; [|done].
    apply reaper_lost in Er. destruct b; simpl.
    + destruct (exit _ w) as [w'|] eqn:Ee; [|done]. simpl.
      intros [= <-]. simpl. apply exit_lost in Ee.
      rewrite decide_False in Ee by done. lia.
    + intros [= <-]. simpl. lia.
  - case_decide; [|done]. intros [= <-]. simpl. done.
Qed.

Lemma run_lost s ls s' :
  Forall not_Close ls → run s ls = Some s' → lost (world s) <= lost (world s').
Proof.
  intros Hls. revert s. induction Hls as [|l ls Hl _ IH]; intros s; simpl.
  - intros [= <-]. lia.
  - destruct (exec s l) as [s1|] eqn:Ex; [|done]. simpl. intros Hr%IH.
    apply exec_lost in Ex; [lia|done].
Qed.

Lemma run_failed_addIdleConn s ls s' :
  Forall failed_addIdleConn ls → run s ls = Some s' →
  idleConns (tp (world s')) = idleConns (tp (world s))
  ∧ idleConnsLen (tp (world s')) = idleConnsLen (tp (world s))
  ∧ lost (world s') = lost (world s) + Z.of_nat (length ls).
Proof.
  intros Hls. revert s. induction Hls as [|l ls [e ->] _ IH]; intros s; simpl.
  - intros [= <-]. split_and!; [done..|lia].
  - case_decide; [|done].
    destruct (addIdleConn (world s) (DialErr e)) as [w|] eqn:Ea; [|done]. simpl.
    destruct (exit GoAddIdleConn w) as [w'|] eqn:Ee; [|done]. simpl.
    intros (H1 & H2 & H3)%IH. simpl in *.
    pose proof (exit_tp _ _ _ Ee) as Htp. apply exit_lost in Ee.
    rewrite decide_True in Ee by done.
    apply addIdleConn_lost in Ea as (Ha & _ & Hc).
    destruct (Hc e eq_refl) as [Hi Hn]. rewrite Hi in Ha.
    rewrite H1, H2, H3, Htp, Hi, Hn. split_and!; [done..|lia].
Qed.

Lemma iter_checkMinIdleConns (w : World) (k : nat) :
  MinIdleConns (opt (tp w)) ≠ 0 →
  poolSize (tp w) + Z.of_nat k <= PoolSize (opt (tp w)) →
  idleConnsLen (tp w) + Z.of_nat k <= MinIdleConns (opt (tp w)) →
  let w' := Nat.iter k checkMinIdleConns w in
  opt (tp w') = opt (tp w)
  ∧ poolSize (tp w') = poolSize (tp w) + Z.of_nat k
  ∧ idleConnsLen (tp w') = idleConnsLen (tp w) + Z.of_nat k
  ∧ count_go GoAddIdleConn w' = (count_go GoAddIdleConn w + k)%nat.
Proof.
  intros Hm. induction k as [|k IH]; intros Hp Hi.
  - simpl. split_and!; try done; lia.
  - destruct IH as (Ho & H1 & H2 & H3); [lia..|].
    change (Nat.iter (S k) checkMinIdleConns w)
      with (checkMinIdleConns (Nat.iter k checkMinIdleConns w)).
    unfold checkMinIdleConns at 1. rewrite Ho, H1, H2.
    rewrite decide_False by done. rewrite decide_True by lia.
    rewrite count_go_go, decide_True by done. simpl.
    rewrite H1, H2. unfold count_go in *. simpl. rewrite H3.
    split_and!; try done; lia.
Qed.

(** C10.  Right after construction with [0 < MinIdleConns <= PoolSize]
    the counter [idleConnsLen], and with it [Stats().IdleConns], is already
    [MinIdleConns], although no dial has been made and [idleConns] is
    empty.  While the spawned dials fail the counter keeps that value and
    [idleConns] stays empty; once all of them have failed, [IdleLen]
    exceeds the length of [idleConns] by at least [MinIdleConns] in every
    later state of the open pool. *)
Theorem IdleConns_counts_reservations (o : Options) (now : Z) :
  0 < MinIdleConns o <= PoolSize o →
  ∃ w, NewThriftConnPool o now = Some w
       ∧ idleConnsLen (tp w) = MinIdleConns o
       ∧ IdleConns (PoolStats w) = u32 (MinIdleConns o)
       ∧ idleConns (tp w) = [] ∧ dials w = 0%nat
       ∧ count_go GoAddIdleConn w = Z.to_nat (MinIdleConns o)
       ∧ ∀ ls1 s1,
           Forall failed_addIdleConn ls1 → run (mkSystem w []) ls1 = Some s1 →
           IdleLen (world s1) = MinIdleConns o
           ∧ idleConns (tp (world s1)) = []
           ∧ (length ls1 = Z.to_nat (MinIdleConns o) →
              ∀ ls2 s2, Forall not_Close ls2 → run s1 ls2 = Some s2 →
                Z.of_nat (length (idleConns (tp (world s2)))) + MinIdleConns o
                <= IdleLen (world s2)).
Proof.
  intros Hm.
  destruct (NewThriftConnPool o now) as [w|] eqn:Ew;
    [|unfold NewThriftConnPool in Ew; rewrite decide_False in Ew by lia; done].
  pose proof (NewThriftConnPool_fresh _ _ _ Ew) as (_ & _ & _ & Hd & _ & Hi & _).
  assert (idleConnsLen (tp w) = MinIdleConns o
          ∧ count_go GoAddIdleConn w = Z.to_nat (MinIdleConns o)) as [Hl Hc].
  { revert Ew. unfold NewThriftConnPool. rewrite decide_False by lia. intros [= <-].
    match goal with |- context [Nat.iter ?k _ ?w0] =>
      destruct (iter_checkMinIdleConns w0 k) as (_ & _ & H2 & H3);
        [simpl; lia..|] end.
    simpl in H2. case_decide; rewrite ?count_go_go; unfold count_go in *; simpl;
      rewrite H2, H3; simpl; split; lia. }
  exists w. split_and!; try done.
  { unfold PoolStats, IdleLen. simpl. by rewrite Hl. }
  intros ls1 s1 Hls1 Hr1.
  apply run_failed_addIdleConn in Hr1 as (H1 & H2 & H3); [|done]. simpl in *.
  unfold IdleLen. rewrite H1, H2. split_and!; try done.
  intros Hlen ls2 s2 Hls2 Hr2. apply run_lost in Hr2; [|done].
  pose proof (Nat2Z.is_nonneg (count_go GoAddIdleConn (world s2))).
  unfold lost in *. rewrite H1, H2, Hi, Hl, Hc, Hlen in H3.
  rewrite H1, H2, Hi, Hl in Hr2. simpl in *. lia.
Qed.

Lemma IdleConns_counts_reservations_witness :
  ∃ w, NewThriftConnPool example_opts 0 = Some w
       ∧ IdleConns (PoolStats w) = 1 ∧ idleConns (tp w) = [] ∧ dials w = 0%nat.
Proof.
  destruct (IdleConns_counts_reservations example_opts 0)
    as (w & H1 & _ & H3 & H4 & H5 & _); [vm_compute; split; congruence|].
  exists w. split_and!; done.
Defined.

(** ** The circuit breaker *)

Lemma u32_range x : 0 <= u32 x < 2 ^ 32.
Proof. unfold u32. apply Z.mod_pos_bound. lia. Qed.

Lemma Breaker_frame w w' :
  opt (tp w') = opt (tp w) → _closed (tp w') = _closed (tp w) →
  dialErrorsNum (tp w') = dialErrorsNum (tp w) →
  lastDialError (tp w') = lastDialError (tp w) →
  count_go GoTryDial w' = count_go GoTryDial w →
  Breaker w → Breaker w'.
Proof.
  intros Ho Hc Hd Hl Hg []. unfold threshold, closed in *.
  split; unfold threshold, closed; rewrite ?Ho, ?Hc, ?Hd, ?Hl, ?Hg; done.
Qed.

Lemma Breaker_quiet w w' : quiet w w' → Breaker w → Breaker w'.
Proof.
  intros [[] ? ? ? ?]. by apply Breaker_frame.
Qed.

(** What [newConn] does to the breaker. *)
Lemma newConn_breaker w pooled d w' r :
  newConn w pooled d = (w', r) →
  opt (tp w') = opt (tp w) ∧ _closed (tp w') = _closed (tp w) ∧
  ((dialErrorsNum (tp w') = dialErrorsNum (tp w)
    ∧ lastDialError (tp w') = lastDialError (tp w)
    ∧ goroutines w' = goroutines w
    ∧ (closed w = true ∨ tripped w ∨ ∃ sock, d = DialOk sock))
   ∨ (∃ e, d = DialErr e ∧ closed w = false ∧ ¬ tripped w
        ∧ dialErrorsNum (tp w') = u32 (dialErrorsNum (tp w) + 1)
        ∧ lastDialError (tp w') = Some e
        ∧ dials w' = S (dials w)
        ∧ goroutines w' = if decide (dialErrorsNum (tp w') = threshold w)
                          then goroutines w ++ [GoTryDial]
                          else goroutines w)).
Proof.
  unfold newConn, tripped, threshold.
  destruct (closed w) eqn:Ec; [intros [= <- <-]; by auto 10|].
  case_decide; [intros [= <- <-]; by auto 10|].
  destruct d as [sock|e]; simpl; [intros [= <- <-]; simpl; by eauto 10|].
  intros [= <- <-]. split_and!; [by case_decide..|]. right. exists e.
  case_decide; simpl; rewrite ?decide_True, ?decide_False by done; split_and!; done.
Qed.

Lemma newConn_Breaker w pooled d w' r :
  newConn w pooled d = (w', r) → Breaker w → Breaker w'.
Proof.
  intros (Ho & Hc & [(Hd & Hl & Hg & _)|(e & -> & Hopen & Htr & Hd & Hl & _ & Hg)])
    %newConn_breaker HB.
  - revert HB. apply Breaker_frame; try done. unfold count_go. by rewrite Hg.
  - destruct HB. unfold tripped, threshold, closed, count_go in *.
    pose proof (u32_range (PoolSize (opt (tp w)))).
    assert (u32 (dialErrorsNum (tp w) + 1) = dialErrorsNum (tp w) + 1) as Hu
      by (unfold u32 at 1; apply Z.mod_small; lia).
    assert (count_occ Goroutine_eq_dec (goroutines w) GoTryDial = 0%nat) as H0.
    { destruct (count_occ Goroutine_eq_dec (goroutines w) GoTryDial) as [|[|n]] eqn:E;
        [done| |lia]. destruct (br_running0 eq_refl). lia. }
    rewrite Hu in *.
    split; unfold threshold, closed, count_go; rewrite ?Ho, ?Hc, ?Hd, ?Hl, ?Hg;
      try done; try lia; case_decide;
      rewrite ?count_occ_app, ?H0; simpl; try done; try lia.
Qed.

Lemma NewConn_newConn w pooled d w' r :
  NewConn w pooled d = Some (w', r) →
  ∃ w1 r1, newConn w pooled d = (w1, r1)
           ∧ opt (tp w') = opt (tp w1) ∧ _closed (tp w') = _closed (tp w1)
           ∧ dialErrorsNum (tp w') = dialErrorsNum (tp w1)
           ∧ lastDialError (tp w') = lastDialError (tp w1)
           ∧ goroutines w' = goroutines w1 ∧ dials w' = dials w1.
Proof.
  unfold NewConn. destruct (newConn w pooled d) as [w1 [cn1 err1]] eqn:En.
  intros H. exists w1, (cn1, err1). split; [done|]. revert H.
  destruct cn1 as [c|], err1 as [e|]; try done; intros [= <- <-]; simpl; try done.
  destruct pooled; [case_decide|]; simpl; split_and!; done.
Qed.

Lemma NewConn_Breaker w pooled d w' r :
  NewConn w pooled d = Some (w', r) → Breaker w → Breaker w'.
Proof.
  intros (w1 & r1 & En & Ho & Hc & Hd & Hl & Hg & _)%NewConn_newConn HB.
  apply (newConn_Breaker _ _ _ _ _ En) in HB. revert HB.
  apply Breaker_frame; try done. unfold count_go. by rewrite Hg.
Qed.

Lemma Get_Breaker w d w' r : Get w d = Some (w', r) → Breaker w → Breaker w'.
Proof.
  intros Hg HB. revert Hg. unfold Get.
  destruct (closed w); [by intros [= <- <-]|].
  apply (Breaker_quiet _ _ (waitTurn_quiet w)) in HB.
  destruct (waitTurn w) as [w1 [e|]]; [by intros [= <- <-]|]. simpl in HB.
  destruct (Get_loop _ w1) as [[w2 c]|] eqn:Eg; [|done]. simpl.
  apply Get_loop_quiet in Eg. apply (Breaker_quiet _ _ Eg) in HB.
  destruct c as [c|]; [by intros [= <- <-]|].
  destruct (NewConn _ true d) as [[w4 [newcn err']]|] eqn:En; [|done]. simpl.
  apply NewConn_Breaker in En; [|revert HB; by apply Breaker_frame].
  destruct err' as [e|]; [|by intros [= <- <-]].
  destruct (freeTurn w4) as [w5|] eqn:Ef; [|done]. simpl. intros [= <- <-].
  apply freeTurn_quiet in Ef. by apply (Breaker_quiet _ _ Ef).
Qed.

Lemma addIdleConn_Breaker w d w' : addIdleConn w d = Some w' → Breaker w → Breaker w'.
Proof.
  unfold addIdleConn. destruct (newConn w true d) as [w1 [cn1 err1]] eqn:En.
  intros Ha HB. apply (newConn_Breaker _ _ _ _ _ En) in HB. revert Ha.
  destruct cn1 as [c|], err1 as [e|]; try done; intros [= <-]; try done.
  revert HB. by apply Breaker_frame.
Qed.

Lemma exit_count g g' w w' :
  exit g w = Some w' →
  count_go g' w = (count_go g' w' + (if decide (g = g') then 1 else 0))%nat.
Proof.
  unfold exit. destruct (remove_first g _) as [gs|] eqn:E; [|done]. simpl.
  intros [= <-]. unfold count_go. simpl. by apply count_occ_remove_first.
Qed.

Lemma exit_Breaker g w w' :
  g ≠ GoTryDial → exit g w = Some w' → Breaker w → Breaker w'.
Proof.
  intros Hg He. pose proof (exit_tp _ _ _ He) as Htp.
  apply (exit_count _ GoTryDial) in He. rewrite decide_False in He by done.
  apply Breaker_frame; rewrite ?Htp; try done. lia.
Qed.

Lemma tryDial_tp w d :
  opt (tp (fst (tryDial w d))) = opt (tp w)
  ∧ _closed (tp (fst (tryDial w d))) = _closed (tp w)
  ∧ goroutines (fst (tryDial w d)) = goroutines w
  ∧ (closed w = true → tryDial w d = (w, true))
  ∧ (closed w = false →
     match d with
     | DialOk _ => snd (tryDial w d) = true ∧ dialErrorsNum (tp (fst (tryDial w d))) = 0
                   ∧ lastDialError (tp (fst (tryDial w d))) = lastDialError (tp w)
     | DialErr e => snd (tryDial w d) = false
                    ∧ dialErrorsNum (tp (fst (tryDial w d))) = dialErrorsNum (tp w)
                    ∧ lastDialError (tp (fst (tryDial w d))) = Some e
     end).
Proof.
  unfold tryDial. destruct (closed w); [by split_and!|].
  destruct d; simpl; rewrite ?cn_Close_tp, ?cn_Close_goroutines; by split_and!.
Qed.

Lemma Close_range_goroutines w l fe :
  goroutines (fst (Close_range w l fe)) = goroutines w.
Proof.
  revert w fe. induction l as [|c l IH]; intros w fe; simpl; [done|].
  pose proof (cn_Close_goroutines w c). destruct (cn_Close w c) as [w1 err].
  simpl in *. by rewrite IH.
Qed.

Lemma exec_Breaker s l s' :
  exec s l = Some s' → Breaker (world s) → Breaker (world s').
Proof.
  intros Hex HB. revert Hex. destruct l; simpl.
  - destruct (Get (world s) d) as [[w [cn err]]|] eqn:Eg; [|done]. simpl.
    apply Get_Breaker in Eg; [|done]. destruct cn, err; by intros [= <-].
  - destruct (remove_first cn (held s)) as [h|]; [|done]. simpl.
    destruct (Put (world s) cn) as [w|] eqn:Ep; [|done]. simpl. intros [= <-].
    apply Put_quiet in Ep. by apply (Breaker_quiet _ _ Ep).
  - destruct (remove_first cn (held s)) as [h|]; [|done]. simpl.
    destruct (Remove (world s) cn reason) as [w|] eqn:Ep; [|done]. simpl.
    intros [= <-]. apply Remove_quiet in Ep. by apply (Breaker_quiet _ _ Ep).
  - intros [= <-]. simpl. unfold Close. case_decide as Hc; [|done].
    set (w0 := with_tp (set__closed 1) (world s)).
    pose proof (Close_range_tp w0 (conns (tp w0)) None) as Htp.
    pose proof (Close_range_goroutines w0 (conns (tp w0)) None) as Hg.
    destruct (Close_range w0 _ None) as [w1 fe]. simpl in *. destruct HB.
    unfold threshold, closed, count_go in *.
    split; unfold threshold, closed, count_go; simpl; rewrite ?Htp, ?Hg; simpl; done.
  - case_decide; [|done].
    destruct (addIdleConn (world s) d) as [w|] eqn:Ea; [|done]. simpl.
    destruct (exit GoAddIdleConn w) as [w'|] eqn:Ee; [|done]. simpl.
    intros [= <-]. simpl. eapply exit_Breaker; [|exact Ee|]; [done|].
    by eapply addIdleConn_Breaker.
  - case_decide as Hin; [|done].
    pose proof (tryDial_tp (world s) d) as (Ho & Hc & Hg & Hcl & Hop).
    assert (count_go GoTryDial (world s) = 1%nat) as H1.
    { destruct HB. unfold count_go in *.
      apply list_elem_of_In, (count_occ_In Goroutine_eq_dec) in Hin. lia. }
    destruct (closed (world s)) eqn:Ec.
    + rewrite Hcl by done. destruct (exit GoTryDial (world s)) as [w'|] eqn:Ee; [|done].
      simpl. intros [= <-]. simpl. pose proof (exit_tp _ _ _ Ee) as Htp.
      apply (exit_count _ GoTryDial) in Ee. rewrite decide_True in Ee by done.
      destruct HB. unfold threshold, closed in *.
      split; unfold threshold, closed; rewrite ?Htp; try done; try lia.
      intros; congruence.
    + specialize (Hop eq_refl).
      destruct (tryDial (world s) d) as [w b]. simpl in *. destruct d as [sock|e].
      * destruct Hop as (-> & Hd & Hl).
        destruct (exit GoTryDial w) as [w'|] eqn:Ee; [|done].
        simpl. intros [= <-]. simpl. pose proof (exit_tp _ _ _ Ee) as Htp.
        apply (exit_count _ GoTryDial) in Ee. rewrite decide_True in Ee by done.
        unfold count_go in *. rewrite Hg in Ee. destruct HB.
        pose proof (u32_range (PoolSize (opt (tp (world s))))).
        unfold threshold, closed, count_go in *.
        split; unfold threshold, closed, count_go; rewrite ?Htp, ?Ho, ?Hc, ?Hd;
          try done; try lia.
      * destruct Hop as (-> & Hd & Hl). simpl. intros [= <-]. simpl.
        destruct HB. unfold threshold, closed, count_go in *.
        split; unfold threshold, closed, count_go; rewrite ?Ho, ?Hc, ?Hd, ?Hg, ?Hl;
          done.
  - case_decide; [|done].
    destruct (reaper (world s)) as [[w b]|] eqn:Er; [|done].
    apply reaper_quiet in Er. apply (Breaker_quiet _ _ Er) in HB. destruct b; simpl.
    + destruct (exit _ w) as [w'|] eqn:Ee; [|done]. simpl.
      intros [= <-]. simpl. eapply exit_Breaker; [|exact Ee|done]. done.
    + by intros [= <-].
  - case_decide; [|done]. intros [= <-]. revert HB. by apply Breaker_frame.
Qed.

Lemma reachable_Breaker allowed o s : reachable allowed o s → Breaker (world s).
Proof.
  induction 1 as [now w Hw|s l s' _ IH _ Hex]; [|by eapply exec_Breaker].
  apply NewThriftConnPool_fresh in Hw as (_ & _ & _ & _ & _ & _ & _ & Hd & Hl & Hg).
  simpl. pose proof (u32_range (PoolSize (opt (tp w)))).
  split; unfold threshold; rewrite ?Hd, ?Hg; try done; try lia.
Qed.

Lemma quiet_threshold w w' : quiet w w' → threshold w' = threshold w.
Proof. intros [[] _ _ _ _]. unfold threshold. by rewrite ev_opt0. Qed.

(** A step that contains one call of [newConn] leaves the failure counter
    alone or, when the breaker is closed, adds one failure. *)
Definition counter_step (w w' : World) : Prop :=
  threshold w' = threshold w
  ∧ (dialErrorsNum (tp w') = dialErrorsNum (tp w)
     ∨ (¬ tripped w ∧ dialErrorsNum (tp w') = u32 (dialErrorsNum (tp w) + 1))).

Lemma counter_step_quiet_l w w1 w' :
  quiet w w1 → counter_step w1 w' → counter_step w w'.
Proof.
  intros Hq [Ht Hd]. pose proof (quiet_threshold _ _ Hq) as Ht1. destruct Hq.
  unfold counter_step, tripped in *. rewrite Ht, Ht1, <- q_dialErrorsNum0.
  rewrite Ht1 in Hd. done.
Qed.

Lemma counter_step_quiet_r w w1 w' :
  counter_step w w1 → quiet w1 w' → counter_step w w'.
Proof.
  intros [Ht Hd] Hq. pose proof (quiet_threshold _ _ Hq) as Ht1. destruct Hq.
  unfold counter_step, tripped in *. rewrite Ht1, Ht, q_dialErrorsNum0. done.
Qed.

Lemma quiet_counter_step w w' : quiet w w' → counter_step w w'.
Proof.
  intros Hq. split; [by apply quiet_threshold|]. left. by destruct Hq.
Qed.

Lemma newConn_counter_step w pooled d w' r :
  newConn w pooled d = (w', r) → counter_step w w'.
Proof.
  intros (Ho & _ & [(Hd & _)|(e & _ & _ & Htr & Hd & _)])%newConn_breaker;
    (split; [unfold threshold; by rewrite Ho|]); auto.
Qed.

Lemma NewConn_counter_step w pooled d w' r :
  NewConn w pooled d = Some (w', r) → counter_step w w'.
Proof.
  intros (w1 & r1 & En & Ho & _ & Hd & _)%NewConn_newConn.
  apply newConn_counter_step in En as [Ht Hs].
  split; [unfold threshold in *; by rewrite Ho|]. by rewrite Hd.
Qed.

Lemma Get_counter_step w d w' r : Get w d = Some (w', r) → counter_step w w'.
Proof.
  unfold Get. destruct (closed w); [intros [= <- <-]; apply quiet_counter_step, quiet_refl|].
  pose proof (waitTurn_quiet w) as H1.
  destruct (waitTurn w) as [w1 [e|]];
    [intros [= <- <-]; by apply quiet_counter_step|]. simpl in H1.
  destruct (Get_loop _ w1) as [[w2 c]|] eqn:Eg; [|done]. simpl.
  apply Get_loop_quiet in Eg. pose proof (quiet_trans _ _ _ H1 Eg) as H2.
  destruct c as [c|]; [intros [= <- <-]; by apply quiet_counter_step|].
  destruct (NewConn _ true d) as [[w4 [newcn err']]|] eqn:En; [|done]. simpl.
  apply NewConn_counter_step in En.
  assert (counter_step w w4) as H4.
  { eapply counter_step_quiet_l; [|exact En].
    eapply quiet_trans; [exact H2|]. by apply quiet_with_tp. }
  destruct err' as [e|]; [|by intros [= <- <-]].
  destruct (freeTurn w4) as [w5|] eqn:Ef; [|done]. simpl. intros [= <- <-].
  apply freeTurn_quiet in Ef. by eapply counter_step_quiet_r.
Qed.

Lemma addIdleConn_counter_step w d w' :
  addIdleConn w d = Some w' → counter_step w w'.
Proof.
  unfold addIdleConn. destruct (newConn w true d) as [w1 [cn1 err1]] eqn:En.
  apply newConn_counter_step in En.
  destruct cn1 as [c|], err1 as [e|]; try done; intros [= <-]; done.
Qed.

Lemma tripped_counter_step w w' : counter_step w w' → tripped w → tripped w'.
Proof.
  intros [Ht [Hd|[Hn _]]] Htr; [|done]. unfold tripped in *. by rewrite Ht, Hd.
Qed.

Lemma exec_tripped s l s' :
  ¬ recovery l → exec s l = Some s' → tripped (world s) → tripped (world s').
Proof.
  intros Hl Hex Htr. revert Hex. destruct l; simpl.
  - destruct (Get (world s) d) as [[w [cn err]]|] eqn:Eg; [|done]. simpl.
    apply Get_counter_step in Eg.
    destruct cn, err; intros [= <-]; by eapply tripped_counter_step.
  - destruct (remove_first cn (held s)) as [h|]; [|done]. simpl.
    destruct (Put (world s) cn) as [w|] eqn:Ep; [|done]. simpl. intros [= <-].
    apply Put_quiet, quiet_counter_step in Ep. by eapply tripped_counter_step.
  - destruct (remove_first cn (held s)) as [h|]; [|done]. simpl.
    destruct (Remove (world s) cn reason) as [w|] eqn:Ep; [|done]. simpl.
    intros [= <-]. apply Remove_quiet, quiet_counter_step in Ep.
    by eapply tripped_counter_step.
  - intros [= <-]. simpl. unfold Close. case_decide as Hc; [|done].
    set (w0 := with_tp (set__closed 1) (world s)).
    pose proof (Close_range_tp w0 (conns (tp w0)) None) as Htp.
    destruct (Close_range w0 _ None) as [w1 fe]. simpl in *.
    unfold tripped, threshold in *. simpl. by rewrite Htp.
  - case_decide; [|done].
    destruct (addIdleConn (world s) d) as [w|] eqn:Ea; [|done]. simpl.
    destruct (exit GoAddIdleConn w) as [w'|] eqn:Ee; [|done]. simpl.
    intros [= <-]. simpl. apply exit_tp in Ee. apply addIdleConn_counter_step in Ea.
    apply (tripped_counter_step _ _ Ea) in Htr.
    unfold tripped, threshold in *. by rewrite Ee.
  - case_decide as Hin; [|done].
    pose proof (tryDial_tp (world s) d) as (Ho & Hc & Hg & Hcl & Hop).
    assert (tripped (fst (tryDial (world s) d))) as Htr'.
    { destruct (closed (world s)) eqn:Ec; [by rewrite Hcl|].
      specialize (Hop eq_refl). destruct d as [sock|e]; [destruct Hl; by eexists|].
      destruct Hop as (_ & Hd & _). unfold tripped, threshold in *. by rewrite Ho, Hd. }
    destruct (tryDial (world s) d) as [w [|]]; simpl in *.
    + destruct (exit GoTryDial w) as [w'|] eqn:Ee; [|done]. simpl.
      intros [= <-]. simpl. apply exit_tp in Ee.
      unfold tripped, threshold in *. by rewrite Ee.
    + by intros [= <-].
  - case_decide; [|done].
    destruct (reaper (world s)) as [[w b]|] eqn:Er; [|done].
    apply reaper_quiet, quiet_counter_step in Er.
    apply (tripped_counter_step _ _ Er) in Htr. destruct b; simpl.
    + destruct (exit _ w) as [w'|] eqn:Ee; [|done]. simpl.
      intros [= <-]. simpl. apply exit_tp in Ee.
      unfold tripped, threshold in *. by rewrite Ee.
    + by intros [= <-].
  - case_decide; [|done]. by intros [= <-].
Qed.

Lemma threshold_PoolSize w :
  0 <= PoolSize (opt (tp w)) < 2 ^ 32 → threshold w = PoolSize (opt (tp w)).
Proof. intros H. unfold threshold, u32. by apply Z.mod_small. Qed.

(** C5.  On an open pool whose failure counter has reached the threshold
    [uint32(PoolSize)], [newConn] hands back the cached [lastDialError] and
    leaves the world as it is, so no dial is made, and a [Get] that finds
    no idle connection fails with that error; the breaker stays open
    through every step that is not a successful dial of [tryDial], which
    sets the counter to zero; [tryDial] is spawned by the failed dial whose
    increment makes the counter equal to the threshold and by nothing else,
    and at most one [tryDial] runs at any time. *)
Theorem circuit_breaker (o : Options) (s : System) :
  reachable any_label o s →
  (0 <= PoolSize o < 2 ^ 32 → threshold (world s) = PoolSize o)
  ∧ (closed (world s) = false → tripped (world s) →
       (∀ pooled d,
          newConn (world s) pooled d = (world s, (None, getLastDialError (world s))))
       ∧ (0 < threshold (world s) →
          ∃ e, getLastDialError (world s) = Some e
               ∧ ∀ d, idleConns (tp (world s)) = [] →
                      Z.of_nat (queue (tp (world s))) < PoolSize o →
                      Get (world s) d
                      = Some (with_tp (λ p, set_stats (add_Misses 1 (stats p)) p)
                                      (world s),
                              (None, Some e))))
  ∧ (tripped (world s) →
       ∀ l s', ¬ recovery l → exec s l = Some s' → tripped (world s'))
  ∧ (closed (world s) = false →
       ∀ sock s', exec s (LTryDial (DialOk sock)) = Some s' →
                  dialErrorsNum (tp (world s')) = 0
                  ∧ count_go GoTryDial (world s') = 0%nat)
  ∧ (count_go GoTryDial (world s) ≤ 1)%nat
  ∧ (closed (world s) = false → 0 < threshold (world s) →
       (count_go GoTryDial (world s) = 1%nat ↔ tripped (world s)))
  ∧ (closed (world s) = false → ¬ tripped (world s) →
       ∀ pooled e,
         ∃ w', newConn (world s) pooled (DialErr e) = (w', (None, Some e))
               ∧ dialErrorsNum (tp w') = dialErrorsNum (tp (world s)) + 1
               ∧ getLastDialError w' = Some e
               ∧ dials w' = S (dials (world s))
               ∧ count_go GoTryDial w'
                 = if decide (dialErrorsNum (tp w') = threshold w') then 1%nat else 0%nat).
Proof.
  intros Hr. pose proof (reachable_Breaker _ _ _ Hr) as HB.
  pose proof (reachable_opt _ _ _ Hr) as Ho. pose proof HB as [].
  split_and!.
  - intros Hp. rewrite <- Ho in *. by apply threshold_PoolSize.
  - intros Hc Htr.
    assert (∀ pooled d, newConn (world s) pooled d
                        = (world s, (None, getLastDialError (world s)))) as Hn.
    { intros pooled d. unfold newConn. rewrite Hc.
      unfold tripped, threshold in Htr. by rewrite decide_True. }
    split; [done|]. intros Hpos.
    destruct (getLastDialError (world s)) as [e|] eqn:El;
      [|apply br_error0 in El; unfold tripped in Htr; lia].
    exists e. split; [done|]. intros d Hi Hq. rewrite <- Ho in Hq.
    unfold Get. rewrite Hc. unfold waitTurn. rewrite decide_True by done.
    simpl. unfold popIdle at 1. simpl. rewrite Hi. simpl.
    unfold NewConn, newConn, closed in *. simpl. rewrite Hc.
    unfold tripped, threshold in Htr. rewrite decide_True by done.
    unfold getLastDialError in *. simpl. rewrite El. simpl. done.
  - intros Htr l s' Hl Hex. by eapply exec_tripped.
  - intros Hc sock s'. simpl. case_decide as Hin; [|done].
    pose proof (tryDial_tp (world s) (DialOk sock)) as (_ & _ & Hg & _ & Hop).
    destruct (Hop Hc) as (Hret & Hd & _).
    destruct (tryDial (world s) (DialOk sock)) as [w b]. simpl in *. subst b.
    destruct (exit GoTryDial w) as [w'|] eqn:Ee; [|done]. simpl. intros [= <-]. simpl.
    pose proof (exit_tp _ _ _ Ee) as Htp.
    apply (exit_count _ GoTryDial) in Ee. rewrite decide_True in Ee by done.
    unfold count_go in *. rewrite Hg in Ee. rewrite Htp. split; [done|lia].
  - done.
  - intros Hc Hpos. unfold tripped. split; [intros H1%br_running0; lia|].
    intros Htr. apply br_started0; [done..|lia].
  - intros Hc Htr pooled e.
    destruct (newConn (world s) pooled (DialErr e)) as [w' r] eqn:En.
    pose proof (newConn_Breaker _ _ _ _ _ En HB) as HB'.
    pose proof En as (Hopt & _ & [(_ & _ & _ & [?|[?|[? ?]]])
                                  |(e' & [= <-] & _ & _ & Hd & Hl & Hdi & Hg)])
      %newConn_breaker; try done; try congruence.
    assert (r = (None, Some e)) as ->.
    { revert En. unfold newConn. rewrite Hc. unfold tripped, threshold in Htr.
      rewrite decide_False by done. simpl. by intros [= _ <-]. }
    exists w'. split; [done|].
    pose proof (u32_range (PoolSize (opt (tp (world s))))).
    assert (u32 (dialErrorsNum (tp (world s)) + 1) = dialErrorsNum (tp (world s)) + 1)
      as Hu by (unfold tripped, threshold, u32 in *; apply Z.mod_small; lia).
    assert (count_go GoTryDial (world s) = 0%nat) as H0.
    { destruct (count_go GoTryDial (world s)) as [|[|n]] eqn:E; [done| |lia].
      destruct (br_running0 eq_refl). unfold tripped in Htr. lia. }
    assert (threshold w' = threshold (world s)) as Ht
      by (unfold threshold; by rewrite Hopt).
    rewrite Hu in Hd. split_and!; try done.
    unfold count_go in *. rewrite Hg, Ht. case_decide; [|done].
    rewrite count_occ_app, H0. done.
Qed.

Lemma circuit_breaker_witness :
  newConn (world tripped_sys) true (DialOk sock_ok)
  = (world tripped_sys, (None, Some (ErrOther "connection refused")))
  ∧ count_go GoTryDial (world tripped_sys) = 1%nat.
Proof.
  destruct (circuit_breaker example_opts tripped_sys) as (_ & H & _ & _ & _ & H1 & _).
  - apply (run_reachable _ _ 0 tripped_labels).
    + repeat constructor.
    + vm_compute. reflexivity.
  - split.
    + destruct H as [H _]; [vm_compute; reflexivity|vm_compute; congruence|].
      apply (H true (DialOk sock_ok)).
    + apply H1; vm_compute; congruence.
Defined.

(** ** The loop of [Get] *)

Lemma settles_refl w : settles w w.
Proof. by split. Qed.

Lemma settles_trans w1 w2 w3 : settles w1 w2 → settles w2 w3 → settles w1 w3.
Proof.
  intros [] []. split; try congruence; auto.
Qed.

Lemma isStaleConn_settles w w' cn : settles w w' → isStaleConn w' cn = isStaleConn w cn.
Proof. intros []. unfold isStaleConn. by rewrite st_opt0, st_clock0, st_used0. Qed.

Lemma checkMinIdleConns_settles w : settles w (checkMinIdleConns w).
Proof. unfold checkMinIdleConns. repeat case_decide; by split. Qed.

Lemma popIdle_settles w : settles w (fst (popIdle w)).
Proof.
  destruct (popIdle w) as [w1 [cn|]] eqn:Ep; simpl.
  - apply popIdle_Some in Ep as (l & Hl & ->).
    eapply settles_trans; [|apply checkMinIdleConns_settles].
    split; simpl; try done. intros c Hc. rewrite Hl, elem_of_app. by left.
  - apply popIdle_None in Ep as [-> _]. apply settles_refl.
Qed.

Lemma removeConn_settles w cn : settles w (removeConn w cn).
Proof.
  unfold removeConn. destruct (remove_first cn (conns (tp w))) as [l|] eqn:E;
    [|apply settles_refl].
  assert (∀ c, c ∈ l → c ∈ conns (tp w)) as Hsub.
  { apply remove_first_Some in E as (l1 & l2 & -> & -> & _).
    intros c. rewrite !elem_of_app, elem_of_cons. tauto. }
  case_match.
  - eapply settles_trans; [|apply checkMinIdleConns_settles]. by split.
  - by split.
Qed.

Lemma cn_Close_settles w cn : settles w (fst (cn_Close w cn)).
Proof.
  unfold cn_Close. destruct (ThriftConn.closed (heap w !!! cn)) eqn:E; simpl;
    [apply settles_refl|].
  split; simpl; try done.
  - intros c. unfold cn_UsedTime. simpl. rewrite lookup_total_alter.
    case_decide; [subst|done]. rewrite lookup_total_alt.
    by destruct (heap w !! c).
  - intros c. unfold cn_IsClose. simpl. rewrite lookup_total_alter.
    case_decide; [subst|done]. intros _. by destruct (heap w !! c).
Qed.

Lemma CloseConn_settles w cn : settles w (fst (CloseConn w cn)).
Proof.
  unfold CloseConn. eapply settles_trans; [apply removeConn_settles|apply cn_Close_settles].
Qed.

Lemma removeConn_fields w cn :
  heap (removeConn w cn) = heap w
  ∧ idleConns (tp (removeConn w cn)) = idleConns (tp w)
  ∧ stats (tp (removeConn w cn)) = stats (tp w)
  ∧ (NoDup (conns (tp w)) → cn ∉ conns (tp (removeConn w cn))).
Proof.
  unfold removeConn. destruct (remove_first cn (conns (tp w))) as [l|] eqn:E.
  - assert (NoDup (conns (tp w)) → cn ∉ l) as Hn
      by (intros Hnd; by apply (remove_first_NoDup _ _ _ E) in Hnd as [_ ?]).
    case_match; [|by split_and!].
    match goal with |- context [checkMinIdleConns ?x] =>
      destruct (checkMinIdleConns_fields x) as (-> & -> & -> & _ & -> & _) end.
    by split_and!.
  - split_and!; try done. intros _. by apply remove_first_None.
Qed.

Lemma Get_loop_spec fuel w held :
  Inv w held → (length (idleConns (tp w)) < fuel)%nat →
  ∃ keep stale w2 r,
    Get_loop fuel w = Some (w2, r)
    ∧ idleConns (tp w) = keep ++ stale
    ∧ Forall (λ cn, isStaleConn w cn = true) stale
    ∧ Forall (λ cn, cn_IsClose w2 cn = true ∧ cn ∉ conns (tp w2)) stale
    ∧ settles w w2
    ∧ match r with
      | Some c => ∃ keep', keep = keep' ++ [c] ∧ isStaleConn w c = false
                           ∧ idleConns (tp w2) = keep'
                           ∧ Hits (stats (tp w2)) = u32 (Hits (stats (tp w)) + 1)
      | None => keep = [] ∧ idleConns (tp w2) = []
                ∧ Hits (stats (tp w2)) = Hits (stats (tp w))
      end.
Proof.
  revert w held. induction fuel as [|fuel IH]; intros w held HI Hf; [lia|]. simpl.
  pose proof (popIdle_settles w) as Hst.
  destruct (popIdle w) as [w1 [cn|]] eqn:Ep; simpl in Hst.
  - pose proof (popIdle_Inv _ _ _ _ HI Ep) as HI1.
    pose proof Ep as (l & Hl & Hw1)%popIdle_Some.
    assert (idleConns (tp w1) = l ∧ heap w1 = heap w ∧ stats (tp w1) = stats (tp w))
      as (Hi1 & Hh1 & Hs1).
    { rewrite Hw1.
      match goal with |- context [checkMinIdleConns ?x] =>
        destruct (checkMinIdleConns_fields x) as (-> & _ & -> & _ & -> & _) end.
      done. }
    rewrite (isStaleConn_settles _ _ _ Hst).
    destruct (isStaleConn w cn) eqn:Es.
    + pose proof (CloseConn_Inv _ _ _ HI1) as HI2.
      pose proof (CloseConn_settles w1 cn) as Hst2.
      destruct (removeConn_fields w1 cn) as (Hh & Hi & Hs & Hnc).
      assert (idleConns (tp (fst (CloseConn w1 cn))) = l) as Hi2
        by (unfold CloseConn; by rewrite cn_Close_tp, Hi).
      destruct (IH _ _ HI2) as (keep & stale & w2 & r & Hg & Hk & Hstale & Hcl & Hst3 & Hr).
      { rewrite Hi2. rewrite Hl, length_app in Hf. simpl in Hf. lia. }
      pose proof (settles_trans _ _ _ Hst Hst2) as Hst12.
      exists keep, (stale ++ [cn]), w2, r. split_and!; try done.
      * rewrite Hl, app_assoc. f_equal. by rewrite <- Hk.
      * rewrite Forall_app, Forall_singleton. split; [|done].
        eapply Forall_impl; [exact Hstale|]. intros c. simpl.
        by rewrite (isStaleConn_settles _ _ _ Hst12).
      * rewrite Forall_app, Forall_singleton. split; [done|]. split.
        -- apply (st_isclose _ _ Hst3). unfold CloseConn. apply cn_Close_closed.
           rewrite Hh, Hh1. destruct HI. apply inv_heap0.
           rewrite Hl, Forall_app, Forall_singleton in inv_idle0. tauto.
        -- intros Hin. apply (st_conns _ _ Hst3) in Hin. revert Hin.
           unfold CloseConn. rewrite cn_Close_tp. apply Hnc. by destruct HI1.
      * by eapply settles_trans.
      * assert (stats (tp (fst (CloseConn w1 cn))) = stats (tp w)) as Hs2
          by (unfold CloseConn; by rewrite cn_Close_tp, Hs).
        destruct r as [c|].
        -- destruct Hr as (keep' & -> & Hns & Hi3 & Hh3). exists keep'.
           rewrite (isStaleConn_settles _ _ _ Hst12) in Hns. rewrite Hs2 in Hh3. done.
        -- rewrite Hs2 in Hr. done.
    + eexists (l ++ [cn]), [], _, (Some cn). split_and!; try done.
      * by rewrite app_nil_r.
      * eapply settles_trans; [exact Hst|]. by split.
      * exists l. simpl. by rewrite Hs1.
  - apply popIdle_None in Ep as [-> Hi].
    exists [], [], w, None. rewrite Hi. split_and!; done || apply settles_refl.
Qed.

Lemma NewConn_cases w pooled d w' cn err :
  NewConn w pooled d = Some (w', (cn, err)) →
  match err with
  | Some e => cn = None ∧ conns (tp w') = conns (tp w) ∧ nextp w' = nextp w
  | None => cn = Some (nextp w) ∧ conns (tp w') = conns (tp w) ++ [nextp w]
            ∧ nextp w' = S (nextp w) ∧ dials w' = S (dials w)
            ∧ ∃ sock, d = DialOk sock
  end.
Proof.
  unfold NewConn, newConn. destruct (closed w); [by intros [= <- <- <-]|].
  case_decide.
  - destruct (getLastDialError w); [by intros [= <- <- <-]|done].
  - destruct d as [sock|e]; simpl.
    + intros [= <- <- <-]. destruct pooled; [case_decide|]; simpl; by eauto 10.
    + intros [= <- <- <-]. by case_decide.
Qed.

Lemma NewConn_dials w pooled d :
  closed w = false → ¬ tripped w →
  ∃ w' r, NewConn w pooled d = Some (w', r) ∧ dials w' = S (dials w)
          ∧ match d with
            | DialOk _ => r = (Some (nextp w), None)
            | DialErr e => r = (None, Some e)
            end.
Proof.
  intros Hc Htr. unfold NewConn, newConn, tripped, threshold in *. rewrite Hc.
  rewrite decide_False by done. destruct d as [sock|e]; simpl.
  - destruct pooled; [case_decide|]; by eauto.
  - case_decide; by eauto.
Qed.

(** C6.  A [Get] that passes the gate pops [idleConns] from its end.  The
    idle list splits into [keep ++ stale]: every connection of [stale] is
    stale, has been closed and is no longer in [conns]; if [keep] is not
    empty its last connection is not stale and is returned, with one more
    hit; if [keep] is empty one more miss is counted and [NewConn] is
    called, and when it fails the slot of the gate is given back, the error
    is returned and [conns] is left as the loop left it. *)
Theorem Get_reuses_last_fresh_idle (o : Options) (s : System) (d : DialResult) :
  reachable any_label o s →
  closed (world s) = false →
  Z.of_nat (queue (tp (world s))) < PoolSize o →
  ∃ keep stale w2,
    idleConns (tp (world s)) = keep ++ stale
    ∧ Forall (λ cn, isStaleConn (world s) cn = true) stale
    ∧ Forall (λ cn, cn_IsClose w2 cn = true ∧ cn ∉ conns (tp w2)) stale
    ∧ queue (tp w2) = S (queue (tp (world s)))
    ∧ dials w2 = dials (world s)
    ∧ match last keep with
      | Some c =>
          isStaleConn (world s) c = false
          ∧ Get (world s) d = Some (w2, (Some c, None))
          ∧ keep = idleConns (tp w2) ++ [c]
          ∧ Hits (stats (tp w2)) = u32 (Hits (stats (tp (world s))) + 1)
          ∧ Misses (stats (tp w2)) = Misses (stats (tp (world s)))
      | None =>
          idleConns (tp w2) = []
          ∧ Hits (stats (tp w2)) = Hits (stats (tp (world s)))
          ∧ Misses (stats (tp w2)) = u32 (Misses (stats (tp (world s))) + 1)
          ∧ match NewConn w2 true d with
            | Some (w3, (cn, None)) =>
                Get (world s) d = Some (w3, (cn, None))
                ∧ cn = Some (nextp (world s))
                ∧ conns (tp w3) = conns (tp w2) ++ [nextp (world s)]
                ∧ queue (tp w3) = S (queue (tp (world s)))
            | Some (w3, (_, Some e)) =>
                ∃ w4, Get (world s) d = Some (w4, (None, Some e))
                      ∧ queue (tp w4) = queue (tp (world s))
                      ∧ conns (tp w4) = conns (tp w2)
                      ∧ nextp w4 = nextp (world s)
            | None => Get (world s) d = None
            end
          ∧ (¬ tripped (world s) →
             ∃ w3 r, NewConn w2 true d = Some (w3, r)
                     ∧ dials w3 = S (dials (world s))
                     ∧ match d with
                       | DialOk _ => r = (Some (nextp (world s)), None)
                       | DialErr e => r = (None, Some e)
                       end)
      end.
Proof.
  intros Hr Hc Hq. pose proof (reachable_Inv _ _ _ Hr) as HI.
  pose proof (reachable_opt _ _ _ Hr) as Ho. rewrite <- Ho in Hq.
  set (w := world s) in *.
  set (w1 := with_tp (set_queue (S (queue (tp w)))) w).
  assert (Inv w1 (held s)) as HI1 by by apply Inv_queue.
  destruct (Get_loop_spec (S (length (idleConns (tp w1)))) w1 (held s) HI1)
    as (keep & stale & w2 & r & Hg & Hk & Hstale & Hcl & Hst & Hres); [lia|].
  assert (Get w d =
          '(w2, cn) ← Get_loop (S (length (idleConns (tp w1)))) w1;
          match cn with
          | Some c => Some (w2, (Some c, None))
          | None =>
              '(w4, (newcn, err)) ←
                NewConn (with_tp (λ p, set_stats (add_Misses 1 (stats p)) p) w2) true d;
              match err with
              | Some e => w5 ← freeTurn w4; Some (w5, (None, Some e))
              | None => Some (w4, (newcn, None))
              end
          end) as HG.
  { unfold Get. rewrite Hc. unfold waitTurn. by rewrite decide_True by done. }
  rewrite Hg in HG. simpl in HG. destruct Hst.
  destruct r as [c|].
  - destruct Hres as (keep' & -> & Hns & Hi & Hh).
    exists (keep' ++ [c]), stale, w2. rewrite last_snoc.
    split_and!; try done. by rewrite Hi.
  - destruct Hres as (-> & Hi & Hh).
    set (w3 := with_tp (λ p, set_stats (add_Misses 1 (stats p)) p) w2) in *.
    exists [], stale, w3. simpl. split_and!; try done.
    + simpl. by rewrite st_misses0.
    + destruct (NewConn w3 true d) as [[w4 [newcn [e|]]]|] eqn:En; simpl in HG; [| |done].
      * pose proof (NewConn_queue _ _ _ _ _ En) as Hq4.
        apply NewConn_cases in En as (-> & Hcn & Hn).
        unfold freeTurn in *. simpl in Hq4. rewrite Hq4, st_queue0 in HG. simpl in HG.
        eexists. split; [exact HG|]. simpl. rewrite Hn. by split_and!.
      * pose proof (NewConn_queue _ _ _ _ _ En) as Hq4.
        apply NewConn_cases in En as (-> & Hcn & Hn & _). simpl in *.
        rewrite st_nextp0 in *. rewrite Hq4, st_queue0. by split_and!.
    + intros Htr.
      destruct (NewConn_dials w3 true d) as (w4 & r & En & Hd & Hr4).
      * unfold closed in *. simpl. by rewrite st_flag0.
      * unfold tripped, threshold in *. simpl. by rewrite st_opt0, st_dialErrorsNum0.
      * exists w4, r. simpl in *. rewrite st_dials0, st_nextp0 in *. done.
Qed.

Lemma Get_reuses_last_fresh_idle_witness :
  ∃ w', Get (world lifo_sys) (DialOk sock_ok) = Some (w', (Some 2%nat, None))
        ∧ cn_IsClose w' 0%nat = true ∧ cn_IsClose w' 1%nat = true
        ∧ conns (tp w') = [2%nat].
Proof.
  destruct (Get_reuses_last_fresh_idle example_opts lifo_sys (DialOk sock_ok))
    as (keep & stale & w2 & Hk & Hs & Hc & _ & _ & H).
  - apply (run_reachable _ _ 0 lifo_labels).
    + repeat constructor.
    + vm_compute. reflexivity.
  - vm_compute. reflexivity.
  - vm_compute. reflexivity.
  - eexists. split_and!; vm_compute; reflexivity.
Defined.

(** ** The methods return

    The cases in which the model has no result are not met along the runs
    of a pool whose [PoolSize] fits in thirty-two bits: [Put] and [Remove]
    of a checked-out connection find a slot to free, the loops of [Get] and
    [ReapStaleConns] come to their end, and [newConn] does not hand over a
    nil connection with a nil error. *)

Lemma Put_returns allowed o s cn :
  reachable allowed o s → cn ∈ held s → is_Some (exec s (LPut cn)).
Proof.
  intros Hr Hcn. pose proof (reachable_queue _ _ _ Hr) as Hq.
  simpl. destruct (remove_first_elem_of _ _ Hcn) as [h Hh]. rewrite Hh. simpl.
  apply remove_first_length in Hh. rewrite Hh in Hq.
  assert (is_Some (Put (world s) cn)) as [w Hw]; [|by rewrite Hw].
  unfold Put, Remove, freeTurn. case_match; simpl.
  - rewrite removeConn_queue, Hq. simpl. by eexists.
  - rewrite Hq. by eexists.
Qed.

Lemma Remove_returns allowed o s cn reason :
  reachable allowed o s → cn ∈ held s → is_Some (exec s (LRemove cn reason)).
Proof.
  intros Hr Hcn. pose proof (reachable_queue _ _ _ Hr) as Hq.
  simpl. destruct (remove_first_elem_of _ _ Hcn) as [h Hh]. rewrite Hh. simpl.
  apply remove_first_length in Hh. rewrite Hh in Hq.
  unfold Remove, freeTurn. rewrite removeConn_queue, Hq. simpl. by eexists.
Qed.

Lemma ReapStaleConns_loop_returns fuel w n :
  Z.of_nat (queue (tp w)) < PoolSize (opt (tp w)) →
  (length (idleConns (tp w)) < fuel)%nat →
  is_Some (ReapStaleConns_loop fuel w n).
Proof.
  revert w n. induction fuel as [|fuel IH]; intros w n Hq Hf; [lia|]. simpl.
  unfold getTurn. rewrite decide_True by done. simpl.
  set (w1 := with_tp (set_queue (S (queue (tp w)))) w).
  unfold reapStaleConn. simpl.
  destruct (idleConns (tp w)) as [|c rest] eqn:Ei; [by eexists|].
  destruct (negb (isStaleConn w1 c)); [by eexists|].
  match goal with |- context [removeConn ?x c] => set (w2 := x) end.
  destruct (removeConn_fields w2 c) as (_ & Hi & _).
  pose proof (removeConn_queue w2 c) as Hq3.
  pose proof (ev_opt _ _ (q_evolves _ _ (removeConn_quiet w2 c))) as Ho3.
  unfold freeTurn. rewrite Hq3. simpl. apply IH.
  - rewrite cn_Close_tp. simpl. by rewrite Ho3.
  - rewrite cn_Close_tp. simpl. rewrite Hi. simpl in *. lia.
Qed.

Lemma ReapStaleConns_returns w :
  Z.of_nat (queue (tp w)) < PoolSize (opt (tp w)) → is_Some (ReapStaleConns w).
Proof. intros Hq. apply ReapStaleConns_loop_returns; [done|lia]. Qed.

Lemma newConn_not_nil_nil w pooled d w' :
  Breaker w → 0 < threshold w → newConn w pooled d ≠ (w', (None, None)).
Proof.
  intros [] Hpos. unfold newConn. destruct (closed w); [done|].
  case_decide as Htr.
  - destruct (getLastDialError w) eqn:El; [done|].
    apply br_error0 in El. unfold threshold in *. lia.
  - destruct d; simpl; [done|]. by case_decide.
Qed.

Lemma Get_returns allowed o s d :
  reachable allowed o s → 0 <= PoolSize o < 2 ^ 32 → is_Some (Get (world s) d).
Proof.
  intros Hr Hp. pose proof (reachable_Inv _ _ _ Hr) as HI.
  pose proof (reachable_Breaker _ _ _ Hr) as HB.
  pose proof (reachable_opt _ _ _ Hr) as Ho.
  unfold Get. destruct (closed (world s)) eqn:Hc; [by eexists|].
  unfold waitTurn. case_decide as Hq; [|by eexists].
  set (w1 := with_tp (set_queue (S (queue (tp (world s))))) (world s)).
  assert (Inv w1 (held s)) as HI1 by by apply Inv_queue.
  destruct (Get_loop_spec (S (length (idleConns (tp w1)))) w1 (held s) HI1)
    as (keep & stale & w2 & r & Hg & _ & _ & _ & Hst & _); [lia|].
  rewrite Hg. simpl. destruct r as [c|]; [by eexists|].
  set (w3 := with_tp (λ p, set_stats (add_Misses 1 (stats p)) p) w2).
  assert (Breaker w3) as HB3.
  { apply Get_loop_quiet in Hg. eapply Breaker_quiet; [|exact HB].
    eapply quiet_trans; [|eapply quiet_trans; [exact Hg|]]; by apply quiet_with_tp. }
  assert (0 < threshold w3) as Hpos.
  { destruct Hst. unfold threshold. simpl. rewrite st_opt0. simpl.
    rewrite Ho in *. unfold u32. rewrite Z.mod_small by done. lia. }
  destruct (NewConn w3 true d) as [[w4 [newcn err]]|] eqn:En.
  - simpl. destruct err as [e|]; [|by eexists].
    apply NewConn_queue in En. unfold freeTurn. destruct Hst. simpl in *.
    rewrite En, st_queue0. simpl. by eexists.
  - exfalso. revert En. unfold NewConn.
    destruct (newConn w3 true d) as [w4 [[c|] [e|]]] eqn:En; try done.
    by apply newConn_not_nil_nil in En.
Qed.

Lemma addIdleConn_returns allowed o s d :
  reachable allowed o s → 0 < PoolSize o < 2 ^ 32 → is_Some (addIdleConn (world s) d).
Proof.
  intros Hr Hp. pose proof (reachable_Breaker _ _ _ Hr) as HB.
  pose proof (reachable_opt _ _ _ Hr) as Ho.
  unfold addIdleConn.
  destruct (newConn (world s) true d) as [w1 [[c|] [e|]]] eqn:En; try by eexists.
  apply newConn_not_nil_nil in En; [done..|].
  unfold threshold, u32. rewrite Ho, Z.mod_small by lia. lia.
Qed.
